(** * RelaySchemaUtils: a shallow embedding and its properties

    The module under study is [src/experimental/compiler/core/RelaySchemaUtils.js].
    It is a thin layer over the [graphql] library: every GraphQL type is a
    JavaScript object, tested with [instanceof] and compared with [===].

    Objects are modelled by their address in a heap.  Named types and schemas
    live in the heap; the two wrapper classes [GraphQLList] and
    [GraphQLNonNull] are modelled structurally, since the code only ever looks
    through them.  Exceptions are modelled by a result type. *)

From Stdlib Require Import Ascii String.
From stdpp Require Import gmap strings list fin_maps.

Open Scope string_scope.

(** ** Errors and results *)

(** [invariant] throws an [Error] named 'Invariant Violation' that carries the
    formatted message; [nullthrows] throws on [null]/[undefined]; calling a
    method on [undefined] is a [TypeError]. *)
Inductive Error : Type :=
| InvariantViolation (message : string)
| NullThrows
| TypeError.

Inductive Result (A : Type) : Type :=
| Ok (a : A)
| Err (e : Error).
Arguments Ok {A} a.
Arguments Err {A} e.

#[global] Instance Result_ret : MRet Result := fun A a => Ok a.
#[global] Instance Result_bind : MBind Result := fun A B f m =>
  match m with
  | Ok a => f a
  | Err e => Err e
  end.

(** [format.replace(/%s/g, () => args[argIndex++])] of [invariant]. *)
Fixpoint formatReplace (format : string) (args : list string) : string :=
  match format with
  | String "%"%char (String "s"%char rest) =>
      match args with
      | a :: args' => a ++ formatReplace rest args'
      | [] => "undefined" ++ formatReplace rest []
      end
  | String c rest => String c (formatReplace rest args)
  | EmptyString => EmptyString
  end.

Definition invariant (condition : bool) (format : string) (args : list string)
  : Result unit :=
  if condition then Ok tt else Err (InvariantViolation (formatReplace format args)).

Definition nullthrows {A : Type} (x : option A) : Result A :=
  match x with
  | Some a => Ok a
  | None => Err NullThrows
  end.

(** The value of a JavaScript expression [a && b] whose left operand is an
    object or [undefined] and whose right operand is a boolean. *)
Inductive JSValue : Type :=
| JSUndefined
| JSBoolean (b : bool).

Definition ToBoolean (v : JSValue) : bool :=
  match v with
  | JSUndefined => false
  | JSBoolean b => b
  end.

(** ** The object model of the [graphql] library *)

Definition loc := nat.

(** A type as the code receives it: a named type object (by address), or a
    list / non-null wrapper around a type ([ofType]). *)
Inductive GraphQLType : Type :=
| NamedRef (l : loc)
| GraphQLList (ofType : GraphQLType)
| GraphQLNonNull (ofType : GraphQLType).

Record GraphQLField : Type := {
  fieldName : string;
  fieldType : GraphQLType;
}.

(** The six classes of named types.  [fields] is the object returned by
    [getFields()], [interfaces] the array returned by [getInterfaces()],
    [unionTypes] the array returned by [getTypes()]. *)
Inductive GraphQLNamedType : Type :=
| GraphQLScalarType (name : string)
| GraphQLObjectType (name : string) (fields : gmap string GraphQLField)
    (interfaces : list loc)
| GraphQLInterfaceType (name : string) (fields : gmap string GraphQLField)
| GraphQLUnionType (name : string) (unionTypes : list loc)
| GraphQLEnumType (name : string) (values : list string)
| GraphQLInputObjectType (name : string) (inputFields : gmap string GraphQLField).

Definition typeName (t : GraphQLNamedType) : string :=
  match t with
  | GraphQLScalarType n => n
  | GraphQLObjectType n _ _ => n
  | GraphQLInterfaceType n _ => n
  | GraphQLUnionType n _ => n
  | GraphQLEnumType n _ => n
  | GraphQLInputObjectType n _ => n
  end.

Record GraphQLDirective : Type := {
  name : string;
  locations : list string;
  args : list (string * GraphQLType);
}.

Record GraphQLSchema : Type := {
  _queryType : loc;
  _mutationType : option loc;
  _subscriptionType : option loc;
  _directives : list GraphQLDirective;
  _typeMap : gmap string loc;
}.

(** The heap: named type objects, schema objects, and the next free schema
    address.  Type objects are never written by this module. *)
Record Heap : Type := {
  typeAt : loc -> GraphQLNamedType;
  schemaAt : loc -> GraphQLSchema;
  nextSchema : loc;
}.

Definition alloc (h : Heap) (s : GraphQLSchema) : loc * Heap :=
  (nextSchema h,
   {| typeAt := typeAt h;
      schemaAt := fun l => if Nat.eqb l (nextSchema h) then s else schemaAt h l;
      nextSchema := S (nextSchema h) |}).

(** *** [instanceof] *)

Definition instanceofGraphQLList (type : GraphQLType) : bool :=
  match type with GraphQLList _ => true | _ => false end.

Definition instanceofGraphQLNonNull (type : GraphQLType) : bool :=
  match type with GraphQLNonNull _ => true | _ => false end.

Definition instanceofGraphQLObjectType (h : Heap) (type : GraphQLType) : bool :=
  match type with
  | NamedRef l => match typeAt h l with GraphQLObjectType _ _ _ => true | _ => false end
  | _ => false
  end.

Definition instanceofGraphQLInterfaceType (h : Heap) (type : GraphQLType) : bool :=
  match type with
  | NamedRef l => match typeAt h l with GraphQLInterfaceType _ _ => true | _ => false end
  | _ => false
  end.

Definition instanceofGraphQLUnionType (h : Heap) (type : GraphQLType) : bool :=
  match type with
  | NamedRef l => match typeAt h l with GraphQLUnionType _ _ => true | _ => false end
  | _ => false
  end.

(** *** Library functions used by the module *)

(** [type.toString()]: the name of a named type, [[T]] for a list, [T!] for
    a non-null. *)
Fixpoint toString (h : Heap) (type : GraphQLType) : string :=
  match type with
  | NamedRef l => typeName (typeAt h l)
  | GraphQLList t => "[" ++ toString h t ++ "]"
  | GraphQLNonNull t => toString h t ++ "!"
  end.

(** The loop of [getNamedType]:
    [while (t instanceof GraphQLList || t instanceof GraphQLNonNull) t = t.ofType]. *)
Fixpoint unwrapAll (type : GraphQLType) : GraphQLType :=
  match type with
  | NamedRef l => NamedRef l
  | GraphQLList t => unwrapAll t
  | GraphQLNonNull t => unwrapAll t
  end.

Definition getNamedType (type : option GraphQLType) : option GraphQLType :=
  unwrapAll <$> type.

(** [isType]: every value of [GraphQLType] is an instance of one of the
    eight type classes. *)
Definition isType (type : option GraphQLType) : bool :=
  match type with Some _ => true | None => false end.

Definition assertType (type : option GraphQLType) : Result GraphQLType :=
  match type with
  | Some t => Ok t
  | None => Err (InvariantViolation "Expected undefined to be a GraphQL type.")
  end.

(** [a === b] where [a] is a named type object: identity of the object, never
    equal to a wrapper or to [undefined]. *)
Definition strictEqNamed (a : GraphQLType) (b : option GraphQLType) : bool :=
  match a, b with
  | NamedRef l, Some (NamedRef l') => Nat.eqb l l'
  | _, _ => false
  end.

(** Schema accessors. *)
Definition getQueryType (h : Heap) (schema : loc) : loc :=
  _queryType (schemaAt h schema).
Definition getMutationType (h : Heap) (schema : loc) : option loc :=
  _mutationType (schemaAt h schema).
Definition getSubscriptionType (h : Heap) (schema : loc) : option loc :=
  _subscriptionType (schemaAt h schema).
Definition getDirectives (h : Heap) (schema : loc) : list GraphQLDirective :=
  _directives (schemaAt h schema).
Definition getTypeMap (h : Heap) (schema : loc) : gmap string loc :=
  _typeMap (schemaAt h schema).
Definition getType (h : Heap) (schema : loc) (n : string) : option GraphQLType :=
  NamedRef <$> (getTypeMap h schema !! n).

(** [Object.values] of a type map (the order of a JavaScript object is its
    insertion order; nothing below depends on the order). *)
Definition Object_values (m : gmap string loc) : list GraphQLType :=
  (fun kv => NamedRef kv.2) <$> map_to_list m.

(** The library's own [isAbstractType] (no unwrapping) and
    [assertAbstractType]. *)
Definition assertAbstractType (h : Heap) (type : GraphQLType) : Result GraphQLType :=
  _ ← invariant
        (instanceofGraphQLInterfaceType h type || instanceofGraphQLUnionType h type)
        "Expected %s to be a GraphQL Abstract type." [toString h type];
  Ok type.

(** [type.getFields()] and [type.getInterfaces()] of the object at a named
    reference. *)
Definition getFields (h : Heap) (type : GraphQLType) : gmap string GraphQLField :=
  match type with
  | NamedRef l =>
      match typeAt h l with
      | GraphQLObjectType _ fields _ => fields
      | GraphQLInterfaceType _ fields => fields
      | GraphQLInputObjectType _ fields => fields
      | _ => ∅
      end
  | _ => ∅
  end.

Definition objectGetInterfaces (h : Heap) (type : GraphQLType) : list GraphQLType :=
  match type with
  | NamedRef l =>
      match typeAt h l with
      | GraphQLObjectType _ _ interfaces => NamedRef <$> interfaces
      | _ => []
      end
  | _ => []
  end.

Definition unionGetTypes (h : Heap) (type : GraphQLType) : list GraphQLType :=
  match type with
  | NamedRef l =>
      match typeAt h l with
      | GraphQLUnionType _ members => NamedRef <$> members
      | _ => []
      end
  | _ => []
  end.

(** [schema.getPossibleTypes(abstractType)]: the members of a union; for an
    interface, [this._implementations[abstractType.name]], the object types
    of the type map that list an interface of that name, and [undefined] when
    there is none. *)
Definition getPossibleTypes (h : Heap) (schema : loc) (abstractType : GraphQLType)
  : option (list GraphQLType) :=
  if instanceofGraphQLUnionType h abstractType then Some (unionGetTypes h abstractType)
  else
    let impls :=
      List.filter
        (fun t => existsb (fun i => String.eqb (toString h i) (toString h abstractType))
                    (objectGetInterfaces h t))
        (Object_values (getTypeMap h schema)) in
    match impls with
    | [] => None
    | _ => Some impls
    end.

(** [new GraphQLSchema(config)].  The constructor collects the root types
    and [config.types] into the type map by name (a name already present is
    kept) and stores the directives it is given; the new object takes the next
    free address. *)
Record GraphQLSchemaConfig : Type := {
  query : loc;
  mutation : option loc;
  subscription : option loc;
  types : list GraphQLType;
  directives : list GraphQLDirective;
}.

Definition typeMapReducer (h : Heap) (map : gmap string loc) (type : GraphQLType)
  : gmap string loc :=
  match unwrapAll type with
  | NamedRef l =>
      match map !! typeName (typeAt h l) with
      | Some _ => map
      | None => <[typeName (typeAt h l) := l]> map
      end
  | _ => map
  end.

Definition newGraphQLSchema (h : Heap) (config : GraphQLSchemaConfig) : loc * Heap :=
  let initialTypes :=
    NamedRef (query config)
      :: (NamedRef <$> option_list (mutation config))
      ++ (NamedRef <$> option_list (subscription config))
      ++ types config in
  alloc h {| _queryType := query config;
             _mutationType := mutation config;
             _subscriptionType := subscription config;
             _directives := directives config;
             _typeMap := foldl (typeMapReducer h) ∅ initialTypes |}.

(** *** Syntax trees *)

Record ASTNode : Type := { kind : string }.

(** Type reference nodes as the library types them: a [NonNullType] node
    wraps a [NamedType] or a [ListType] node, never another [NonNullType]. *)
Inductive TypeNode : Type :=
| NullableNode (node : NullableTypeNode)
| NonNullTypeNode (type : NullableTypeNode)
with NullableTypeNode : Type :=
| NamedTypeNode (value : string)
| ListTypeNode (type : TypeNode).

Scheme TypeNode_mut := Induction for TypeNode Sort Prop
  with NullableTypeNode_mut := Induction for NullableTypeNode Sort Prop.
Combined Scheme TypeNode_mutind from TypeNode_mut, NullableTypeNode_mut.

(** [print(ast)] on type reference nodes. *)
Fixpoint print (ast : TypeNode) : string :=
  match ast with
  | NullableNode n => printNullable n
  | NonNullTypeNode n => printNullable n ++ "!"
  end
with printNullable (ast : NullableTypeNode) : string :=
  match ast with
  | NamedTypeNode value => value
  | ListTypeNode t => "[" ++ print t ++ "]"
  end.

(** [new GraphQLNonNull(type)] rejects a non-null argument. *)
Definition newGraphQLNonNull (h : Heap) (type : GraphQLType) : Result GraphQLType :=
  _ ← invariant (negb (instanceofGraphQLNonNull type))
        "Can only create NonNull of a Nullable GraphQLType but got: %s."
        [toString h type];
  Ok (GraphQLNonNull type).

(** The library's [typeFromAST(schema, typeNode)]: [undefined] when the named
    leaf is not in the schema. *)
Fixpoint typeFromAST (h : Heap) (schema : loc) (typeNode : TypeNode)
  : Result (option GraphQLType) :=
  match typeNode with
  | NullableNode n => typeFromNullableAST h schema n
  | NonNullTypeNode n =>
      innerType ← typeFromNullableAST h schema n;
      match innerType with
      | Some t => nonNull ← newGraphQLNonNull h t; Ok (Some nonNull)
      | None => Ok None
      end
  end
with typeFromNullableAST (h : Heap) (schema : loc) (typeNode : NullableTypeNode)
  : Result (option GraphQLType) :=
  match typeNode with
  | NamedTypeNode value => Ok (getType h schema value)
  | ListTypeNode t =>
      innerType ← typeFromAST h schema t;
      match innerType with
      | Some t' => Ok (Some (GraphQLList t'))
      | None => Ok None
      end
  end.

(** ** The functions of RelaySchemaUtils *)

Definition ID : string := "id".
Definition ID_TYPE : string := "ID".

(** Get the unmodified type, with list/null wrappers removed. *)
Definition getRawType (type : GraphQLType) : Result GraphQLType :=
  nullthrows (getNamedType (Some type)).

Definition canHaveSelections (h : Heap) (type : GraphQLType) : bool :=
  instanceofGraphQLObjectType h type || instanceofGraphQLInterfaceType h type.

(** Determine if a type is abstract; unwraps non-null/list wrappers. *)
Definition isAbstractType (h : Heap) (type : GraphQLType) : Result bool :=
  rawType ← getRawType type;
  Ok (instanceofGraphQLInterfaceType h rawType || instanceofGraphQLUnionType h rawType).

Definition getInterfaces (h : Heap) (type : GraphQLType) : list GraphQLType :=
  if instanceofGraphQLObjectType h type then objectGetInterfaces h type else [].

Definition implementsInterface (h : Heap) (type : GraphQLType) (interfaceName : string)
  : bool :=
  existsb (fun interfaceType => String.eqb (toString h interfaceType) interfaceName)
    (getInterfaces h type).

Definition getConcreteTypes (h : Heap) (schema : loc) (type : GraphQLType)
  : Result (option (list GraphQLType)) :=
  abstractType ← assertAbstractType h type;
  Ok (getPossibleTypes h schema abstractType).

(** [isAbstractType(type) && getConcreteTypes(schema, type).some(...)];
    [.some] on [undefined] is a [TypeError]. *)
Definition hasConcreteTypeThatImplements (h : Heap) (schema : loc)
    (type : GraphQLType) (interfaceName : string) : Result bool :=
  isAbstract ← isAbstractType h type;
  if (isAbstract : bool) then
    concreteTypes ← getConcreteTypes h schema type;
    match concreteTypes with
    | Some cs =>
        Ok (existsb (fun concreteType => implementsInterface h concreteType interfaceName) cs)
    | None => Err TypeError
    end
  else Ok false.

(** Determine if the given type may implement the named type; the three
    disjuncts are evaluated left to right and short-circuit. *)
Definition mayImplement (h : Heap) (schema : loc) (type : GraphQLType)
    (typeName : string) : Result bool :=
  unmodifiedType ← getRawType type;
  if String.eqb (toString h unmodifiedType) typeName then Ok true
  else if implementsInterface h unmodifiedType typeName then Ok true
  else
    isAbstract ← isAbstractType h unmodifiedType;
    if (isAbstract : bool) then hasConcreteTypeThatImplements h schema unmodifiedType typeName
    else Ok false.

(** [return idField && getRawType(idField.type) === idType]: the value is
    [undefined] when the field is absent, a boolean otherwise. *)
Definition hasID (h : Heap) (schema : loc) (type : GraphQLType) : Result JSValue :=
  unmodifiedType ← getRawType type;
  _ ← invariant
        (instanceofGraphQLObjectType h unmodifiedType
         || instanceofGraphQLInterfaceType h unmodifiedType)
        "RelaySchemaUtils.hasID(): Expected a concrete type or interface, got type `%s`."
        [toString h type];
  let idType := getType h schema ID_TYPE in
  let idField := getFields h unmodifiedType !! ID in
  match idField with
  | None => Ok JSUndefined
  | Some field =>
      rawFieldType ← getRawType (fieldType field);
      Ok (JSBoolean (strictEqNamed rawFieldType idType))
  end.

Definition assertNamedType (h : Heap) (type : GraphQLType) : Result GraphQLType :=
  asserted ← assertType (Some type);
  let namedType := getNamedType (Some asserted) in
  _ ← invariant
        (match namedType with
         | Some n => strictEqNamed n (Some type)
         | None => false
         end)
        "RelaySchemaUtils: Expected `%s` to be a named type." [toString h type];
  Ok type.

(** Gets the non-list type:
    [while (unmodifiedType instanceof GraphQLList) unmodifiedType = unmodifiedType.ofType]. *)
Fixpoint getSingularType (type : GraphQLType) : GraphQLType :=
  match type with
  | GraphQLList ofType => getSingularType ofType
  | _ => type
  end.

(** The [forEach] over the combined directives, threading the set
    [directiveNames]. *)
Fixpoint validateUniqueNames (combinedDirectives : list GraphQLDirective)
    (directiveNames : gset string) : Result (gset string) :=
  match combinedDirectives with
  | [] => Ok directiveNames
  | directive :: rest =>
      _ ← invariant (negb (bool_decide (name directive ∈ directiveNames)))
            "RelaySchemaUtils: Expected unique names for directives, found a duplicate directive `%s`."
            [name directive];
      validateUniqueNames rest ({[name directive]} ∪ directiveNames)
  end.

Fixpoint mapResult {A B : Type} (f : A -> Result B) (l : list A) : Result (list B) :=
  match l with
  | [] => Ok []
  | x :: l' => y ← f x; ys ← mapResult f l'; Ok (y :: ys)
  end.

(** Creates a copy of the schema with the given directives added. *)
Definition schemaWithDirectives (h : Heap) (schema : loc)
    (directives : list GraphQLDirective) : Result (loc * Heap) :=
  let combinedDirectives := (getDirectives h schema ++ directives)%list in
  _ ← validateUniqueNames combinedDirectives ∅;
  types ← mapResult (assertNamedType h) (Object_values (getTypeMap h schema));
  Ok (newGraphQLSchema h
          {| query := getQueryType h schema;
             mutation := getMutationType h schema;
             subscription := getSubscriptionType h schema;
             types := types;
             directives := combinedDirectives |}).

Definition isOperationDefinitionAST (ast : ASTNode) : bool :=
  String.eqb (kind ast) "FragmentDefinition"
  || String.eqb (kind ast) "OperationDefinition".

Definition getOperationDefinitionAST (ast : ASTNode) : option ASTNode :=
  if isOperationDefinitionAST ast then Some ast else None.

Definition isSchemaDefinitionAST (ast : ASTNode) : bool :=
  String.eqb (kind ast) "DirectiveDefinition"
  || String.eqb (kind ast) "EnumTypeDefinition"
  || String.eqb (kind ast) "InputObjectTypeDefinition"
  || String.eqb (kind ast) "InterfaceTypeDefinition"
  || String.eqb (kind ast) "ObjectTypeDefinition"
  || String.eqb (kind ast) "ScalarTypeDefinition"
  || String.eqb (kind ast) "TypeExtensionDefinition"
  || String.eqb (kind ast) "UnionTypeDefinition".

Definition assertTypeWithFields (h : Heap) (type : GraphQLType) : Result GraphQLType :=
  _ ← invariant
        (instanceofGraphQLObjectType h type || instanceofGraphQLInterfaceType h type)
        "RelaySchemaUtils: Expected type `%s` to be an object or interface type."
        [toString h type];
  Ok type.

(** [typeFromAST] with a clear error when the type does not exist. *)
Definition getTypeFromAST (h : Heap) (schema : loc) (ast : TypeNode)
  : Result GraphQLType :=
  type ← typeFromAST h schema ast;
  _ ← invariant (isType type) "RelaySchemaUtils: Unknown type `%s`." [print ast];
  match type with
  | Some t => Ok t
  | None => Err TypeError (* not reached: isType(undefined) is false *)
  end.

(** ** A concrete schema

    [interface Node { id: ID }],
    [type User implements Node { id: ID, name: String }],
    [union Entity = User], [type Query { me: User }], and the scalars
    [ID], [String], [Int]. *)
Module Example.

Definition IDScalar : loc := 0.
Definition StringScalar : loc := 1.
Definition IntScalar : loc := 2.
Definition NodeInterface : loc := 3.
Definition UserObject : loc := 4.
Definition EntityUnion : loc := 5.
Definition QueryObject : loc := 6.
(** A second scalar object that is also named [ID], and an object type whose
    field [id] has that type: not the objects of the schema below. *)
Definition ForeignIDScalar : loc := 7.
Definition PostObject : loc := 8.

Definition mkField (n : string) (t : GraphQLType) : string * GraphQLField :=
  (n, {| fieldName := n; fieldType := t |}).

Definition exampleTypes (l : loc) : GraphQLNamedType :=
  match l with
  | 0 => GraphQLScalarType "ID"
  | 1 => GraphQLScalarType "String"
  | 3 => GraphQLInterfaceType "Node" (list_to_map [mkField "id" (NamedRef IDScalar)])
  | 4 => GraphQLObjectType "User"
           (list_to_map [mkField "id" (NamedRef IDScalar);
                         mkField "name" (NamedRef StringScalar)])
           [NodeInterface]
  | 5 => GraphQLUnionType "Entity" [UserObject]
  | 6 => GraphQLObjectType "Query"
           (list_to_map [mkField "me" (NamedRef UserObject)]) []
  | 7 => GraphQLScalarType "ID"
  | 8 => GraphQLObjectType "Post"
           (list_to_map [mkField "id" (GraphQLNonNull (NamedRef ForeignIDScalar))]) []
  | _ => GraphQLScalarType "Int"
  end.

Definition skipDirective : GraphQLDirective :=
  {| name := "skip"; locations := ["FIELD"]; args := [("if", NamedRef IntScalar)] |}.
Definition includeDirective : GraphQLDirective :=
  {| name := "include"; locations := ["FIELD"]; args := [("if", NamedRef IntScalar)] |}.
Definition relayDirective : GraphQLDirective :=
  {| name := "relay"; locations := ["FRAGMENT_DEFINITION"]; args := [] |}.
Definition connectionDirective : GraphQLDirective :=
  {| name := "connection"; locations := ["FIELD"]; args := [("key", NamedRef StringScalar)] |}.

Definition exampleSchema : GraphQLSchema :=
  {| _queryType := QueryObject;
     _mutationType := None;
     _subscriptionType := None;
     _directives := [skipDirective; includeDirective];
     _typeMap := list_to_map
       [("ID", IDScalar); ("String", StringScalar); ("Int", IntScalar);
        ("Node", NodeInterface); ("User", UserObject);
        ("Entity", EntityUnion); ("Query", QueryObject)] |}.

(** The same schema, whose directive list repeats a name. *)
Definition repeatingSchema : GraphQLSchema :=
  {| _queryType := QueryObject;
     _mutationType := None;
     _subscriptionType := None;
     _directives := [skipDirective; includeDirective; skipDirective];
     _typeMap := _typeMap exampleSchema |}.

(** A schema that defines no type named [ID]. *)
Definition noIDSchema : GraphQLSchema :=
  {| _queryType := QueryObject;
     _mutationType := None;
     _subscriptionType := None;
     _directives := [];
     _typeMap := list_to_map
       [("User", UserObject); ("Query", QueryObject); ("String", StringScalar)] |}.

(** Schema objects at addresses 0, 1 and 2; address 3 is free. *)
Definition exampleHeap : Heap :=
  {| typeAt := exampleTypes;
     schemaAt := fun l =>
       match l with
       | 0 => exampleSchema
       | 1 => repeatingSchema
       | _ => noIDSchema
       end;
     nextSchema := 3 |}.

End Example.
Import Example.

(** ** Vocabulary of the statements *)

(** The address of the named type a type reference ends in. *)
Fixpoint rawTypeOf (type : GraphQLType) : loc :=
  match type with
  | NamedRef l => l
  | GraphQLList t => rawTypeOf t
  | GraphQLNonNull t => rawTypeOf t
  end.

(** [k] list layers around a type. *)
Fixpoint listLayers (k : nat) (type : GraphQLType) : GraphQLType :=
  match k with
  | 0 => type
  | S k' => GraphQLList (listLayers k' type)
  end.

(** Whether a list layer occurs anywhere in a type reference. *)
Fixpoint hasListLayer (type : GraphQLType) : bool :=
  match type with
  | NamedRef _ => false
  | GraphQLList _ => true
  | GraphQLNonNull t => hasListLayer t
  end.

Definition isObject (t : GraphQLNamedType) : Prop :=
  match t with GraphQLObjectType _ _ _ => True | _ => False end.

Definition isInterface (t : GraphQLNamedType) : Prop :=
  match t with GraphQLInterfaceType _ _ => True | _ => False end.

(** The interfaces an object type declares; no other class declares any. *)
Definition declaredInterfaces (t : GraphQLNamedType) : list loc :=
  match t with
  | GraphQLObjectType _ _ interfaces => interfaces
  | _ => []
  end.

(** The field map of an object or interface type. *)
Definition fieldsOf (t : GraphQLNamedType) : gmap string GraphQLField :=
  match t with
  | GraphQLObjectType _ fields _ => fields
  | GraphQLInterfaceType _ fields => fields
  | _ => ∅
  end.

(** The kinds of the two classes of definitions. *)
Definition schemaDefinitionKinds : list string :=
  ["DirectiveDefinition"; "EnumTypeDefinition"; "InputObjectTypeDefinition";
   "InterfaceTypeDefinition"; "ObjectTypeDefinition"; "ScalarTypeDefinition";
   "TypeExtensionDefinition"; "UnionTypeDefinition"].

Definition operationDefinitionKinds : list string :=
  ["FragmentDefinition"; "OperationDefinition"].

(** The errors, by their messages. *)
Definition hasIDError (h : Heap) (type : GraphQLType) : Error :=
  InvariantViolation
    ("RelaySchemaUtils.hasID(): Expected a concrete type or interface, got type `"
     ++ toString h type ++ "`.").

Definition duplicateDirectiveError (n : string) : Error :=
  InvariantViolation
    ("RelaySchemaUtils: Expected unique names for directives, found a duplicate directive `"
     ++ n ++ "`.").

Definition unknownTypeError (printed : string) : Error :=
  InvariantViolation ("RelaySchemaUtils: Unknown type `" ++ printed ++ "`.").

(** [needle] occurs in [text]. *)
Definition occursIn (needle text : string) : Prop :=
  ∃ before after, text = before ++ needle ++ after.

(** The name at the leaf of a type reference node. *)
Fixpoint leafName (ast : TypeNode) : string :=
  match ast with
  | NullableNode n => leafNameNullable n
  | NonNullTypeNode n => leafNameNullable n
  end
with leafNameNullable (ast : NullableTypeNode) : string :=
  match ast with
  | NamedTypeNode value => value
  | ListTypeNode t => leafName t
  end.

(** The wrapper layers of a node, rebuilt around a leaf type. *)
Fixpoint wrapLike (ast : TypeNode) (leaf : GraphQLType) : GraphQLType :=
  match ast with
  | NullableNode n => wrapLikeNullable n leaf
  | NonNullTypeNode n => GraphQLNonNull (wrapLikeNullable n leaf)
  end
with wrapLikeNullable (ast : NullableTypeNode) (leaf : GraphQLType) : GraphQLType :=
  match ast with
  | NamedTypeNode _ => leaf
  | ListTypeNode t => GraphQLList (wrapLike t leaf)
  end.

(** The configuration handed to the constructor. *)
Definition copyConfig (h : Heap) (schema : loc) (directives : list GraphQLDirective)
  : GraphQLSchemaConfig :=
  {| query := getQueryType h schema;
     mutation := getMutationType h schema;
     subscription := getSubscriptionType h schema;
     types := Object_values (getTypeMap h schema);
     directives := (getDirectives h schema ++ directives)%list |}.

(** A type object is registered in a type map under its own name. *)
Definition registered (h : Heap) (m : gmap string loc) (l : loc) : bool :=
  bool_decide (m !! typeName (typeAt h l) = Some l).

(** What the constructor guarantees of every schema it builds: each entry
    of the type map is keyed by the name of its type, and the root types are
    in the type map. *)
Definition wellFormedSchema (h : Heap) (schema : loc) : bool :=
  forallb (fun kv => String.eqb (typeName (typeAt h kv.2)) kv.1)
    (map_to_list (getTypeMap h schema))
  && registered h (getTypeMap h schema) (getQueryType h schema)
  && from_option (registered h (getTypeMap h schema)) true (getMutationType h schema)
  && from_option (registered h (getTypeMap h schema)) true (getSubscriptionType h schema).

(** The type reference ends in a type registered in [m]. *)
Definition known (h : Heap) (m : gmap string loc) (type : GraphQLType) : Prop :=
  m !! typeName (typeAt h (rawTypeOf type)) = Some (rawTypeOf type).

Definition isUnion (t : GraphQLNamedType) : Prop :=
  match t with GraphQLUnionType _ _ => True | _ => False end.

(** The type declares an interface of the given name. *)
Definition declaresInterfaceNamed (h : Heap) (t : GraphQLNamedType) (n : string) : Prop :=
  ∃ i, i ∈ declaredInterfaces t ∧ typeName (typeAt h i) = n.

Definition namedTypeError (h : Heap) (type : GraphQLType) : Error :=
  InvariantViolation
    ("RelaySchemaUtils: Expected `" ++ toString h type ++ "` to be a named type.").

Definition typeWithFieldsError (h : Heap) (type : GraphQLType) : Error :=
  InvariantViolation
    ("RelaySchemaUtils: Expected type `" ++ toString h type
     ++ "` to be an object or interface type.").

(** The directives of the schema a call returned, or the error it threw. *)
Definition resultDirectives (r : Result (loc * Heap)) : Result (list GraphQLDirective) :=
  match r with
  | Ok (schema, h) => Ok (getDirectives h schema)
  | Err e => Err e
  end.

(** ** Unwrapping *)

Lemma unwrapAll_rawTypeOf (type : GraphQLType) :
  unwrapAll type = NamedRef (rawTypeOf type).
Proof. induction type; simpl; auto. Qed.

Lemma getRawType_ok (type : GraphQLType) :
  getRawType type = Ok (NamedRef (rawTypeOf type)).
Proof. unfold getRawType; simpl. by rewrite unwrapAll_rawTypeOf. Qed.

Lemma instanceofGraphQLObjectType_spec (h : Heap) (type : GraphQLType) :
  instanceofGraphQLObjectType h type = true
  ↔ ∃ l, type = NamedRef l ∧ isObject (typeAt h l).
Proof.
  split.
  - destruct type as [l| |]; simpl; try discriminate.
    intros H. exists l. split; [done|]. by destruct (typeAt h l).
  - intros (l & -> & H). simpl. by destruct (typeAt h l).
Qed.

Lemma instanceofGraphQLInterfaceType_spec (h : Heap) (type : GraphQLType) :
  instanceofGraphQLInterfaceType h type = true
  ↔ ∃ l, type = NamedRef l ∧ isInterface (typeAt h l).
Proof.
  split.
  - destruct type as [l| |]; simpl; try discriminate.
    intros H. exists l. split; [done|]. by destruct (typeAt h l).
  - intros (l & -> & H). simpl. by destruct (typeAt h l).
Qed.

(** ** canHaveSelections *)

(** C3 (as the code has it): [canHaveSelections] tests the type it is given,
    without unwrapping.  It is true exactly when the argument is itself a
    named Object or Interface type; on any List or NonNull wrapper it is
    false, whatever the raw type is; so on a type that is already raw it
    agrees with the variant of the raw type. *)
Theorem canHaveSelections_unwrapped (h : Heap) (type : GraphQLType) :
  (canHaveSelections h type = true
   ↔ ∃ l, type = NamedRef l ∧ (isObject (typeAt h l) ∨ isInterface (typeAt h l)))
  ∧ canHaveSelections h (GraphQLList type) = false
  ∧ canHaveSelections h (GraphQLNonNull type) = false
  ∧ (canHaveSelections h (unwrapAll type) = true
     ↔ isObject (typeAt h (rawTypeOf type)) ∨ isInterface (typeAt h (rawTypeOf type))).
Proof.
  assert (Hnamed : ∀ t, canHaveSelections h t = true
     ↔ ∃ l, t = NamedRef l ∧ (isObject (typeAt h l) ∨ isInterface (typeAt h l))).
  { intros t. unfold canHaveSelections. rewrite orb_true_iff.
    rewrite instanceofGraphQLObjectType_spec, instanceofGraphQLInterfaceType_spec.
    split.
    - intros [(l & -> & H)|(l & -> & H)]; exists l; auto.
    - intros (l & -> & [H|H]); [left|right]; exists l; auto. }
  split; [apply Hnamed|]. repeat split; try reflexivity.
  - rewrite Hnamed, unwrapAll_rawTypeOf. intros (l & [= <-] & H). done.
  - rewrite Hnamed, unwrapAll_rawTypeOf. eauto.
Qed.

(** C3 fails as stated: the raw type of [[User]] is an Object type, and
    [canHaveSelections] is false on [[User]] while true on [User]. *)
Lemma canHaveSelections_wrapped_counterexample :
  isObject (typeAt exampleHeap (rawTypeOf (GraphQLList (NamedRef UserObject))))
  ∧ canHaveSelections exampleHeap (GraphQLList (NamedRef UserObject)) = false
  ∧ canHaveSelections exampleHeap (unwrapAll (GraphQLList (NamedRef UserObject))) = true.
Proof. repeat split. Qed.

(** ** getSingularType *)

Lemma getSingularType_listLayers (k : nat) (type : GraphQLType) :
  getSingularType (listLayers k type) = getSingularType type.
Proof. induction k; simpl; auto. Qed.

Lemma getSingularType_decompose (type : GraphQLType) :
  ∃ k, type = listLayers k (getSingularType type).
Proof.
  induction type as [l|t [k IH]|t _].
  - by exists 0.
  - exists (S k). simpl. by rewrite <- IH.
  - by exists 0.
Qed.

(** C4 (as the code has it): [getSingularType] removes the outermost run of
    List layers and stops at the first layer that is not a List.  The result
    is never itself a List, the argument is the result under some number of
    List layers, a type that starts with NonNull is returned as it is, and
    [getSingularType(List(NonNull(Int)))] is [NonNull(Int)]. *)
Theorem getSingularType_strips_outer_lists (type : GraphQLType) :
  instanceofGraphQLList (getSingularType type) = false
  ∧ (∃ k, type = listLayers k (getSingularType type))
  ∧ (∀ k t, getSingularType (listLayers k (GraphQLNonNull t)) = GraphQLNonNull t)
  ∧ getSingularType (GraphQLList (GraphQLNonNull (NamedRef IntScalar)))
    = GraphQLNonNull (NamedRef IntScalar).
Proof.
  repeat split.
  - induction type; simpl; auto.
  - apply getSingularType_decompose.
  - intros k t. by rewrite getSingularType_listLayers.
Qed.

(** C4 fails as stated: a List layer below a NonNull is not removed;
    [getSingularType] of [List(NonNull(List(Int)))] is [NonNull(List(Int))],
    which still has a List layer. *)
Lemma getSingularType_inner_list_counterexample :
  getSingularType (GraphQLList (GraphQLNonNull (GraphQLList (NamedRef IntScalar))))
  = GraphQLNonNull (GraphQLList (NamedRef IntScalar))
  ∧ hasListLayer
      (getSingularType (GraphQLList (GraphQLNonNull (GraphQLList (NamedRef IntScalar)))))
    = true.
Proof. split; reflexivity. Qed.

(** ** implementsInterface *)

Lemma getInterfaces_named (h : Heap) (l : loc) :
  getInterfaces h (NamedRef l) = NamedRef <$> declaredInterfaces (typeAt h l).
Proof. unfold getInterfaces. simpl. by destruct (typeAt h l). Qed.

Lemma implementsInterface_named (h : Heap) (l : loc) (interfaceName : string) :
  implementsInterface h (NamedRef l) interfaceName = true
  ↔ ∃ i, i ∈ declaredInterfaces (typeAt h l) ∧ typeName (typeAt h i) = interfaceName.
Proof.
  unfold implementsInterface. rewrite getInterfaces_named, existsb_exists. split.
  - intros (t & Hin & Heq). apply list_elem_of_In, list_elem_of_fmap in Hin.
    destruct Hin as (i & -> & Hi). exists i. split; [done|].
    by apply String.eqb_eq in Heq.
  - intros (i & Hi & Heq). exists (NamedRef i). split.
    + apply list_elem_of_In, list_elem_of_fmap. eauto.
    + by apply String.eqb_eq.
Qed.

(** C1 (as the code has it): [implementsInterface] looks at the type it is
    given, without unwrapping.  It is true exactly when the argument is itself
    an Object type whose declared interface list has an interface named
    [interfaceName]; it is false on every List or NonNull wrapper, and false
    whenever the raw type is not an Object type (Interface, Union, Scalar,
    Enum, InputObject). *)
Theorem implementsInterface_unwrapped (h : Heap) (type : GraphQLType)
    (interfaceName : string) :
  (implementsInterface h type interfaceName = true
   ↔ ∃ l, type = NamedRef l ∧ isObject (typeAt h l)
          ∧ ∃ i, i ∈ declaredInterfaces (typeAt h l)
                 ∧ typeName (typeAt h i) = interfaceName)
  ∧ implementsInterface h (GraphQLList type) interfaceName = false
  ∧ implementsInterface h (GraphQLNonNull type) interfaceName = false
  ∧ (¬ isObject (typeAt h (rawTypeOf type))
     → implementsInterface h type interfaceName = false).
Proof.
  assert (Hiff : implementsInterface h type interfaceName = true
   ↔ ∃ l, type = NamedRef l ∧ isObject (typeAt h l)
          ∧ ∃ i, i ∈ declaredInterfaces (typeAt h l)
                 ∧ typeName (typeAt h i) = interfaceName).
  { destruct type as [l|t|t].
    - rewrite implementsInterface_named. split.
      + intros (i & Hi & Hn). exists l. repeat split; eauto.
        destruct (typeAt h l); simpl in *; try done; by apply elem_of_nil in Hi.
      + intros (l' & [= <-] & _ & H). done.
    - split; [discriminate|]. by intros (l & [=] & _).
    - split; [discriminate|]. by intros (l & [=] & _). }
  split; [exact Hiff|]. repeat split.
  intros Hno. apply not_true_is_false. rewrite Hiff.
  intros (l & -> & Hobj & _). by apply Hno.
Qed.

(** C1 fails as stated: the raw type of [[User]] is the Object type [User],
    which declares the interface [Node], and [implementsInterface] is false
    on [[User]]. *)
Lemma implementsInterface_wrapped_counterexample :
  isObject (typeAt exampleHeap (rawTypeOf (GraphQLList (NamedRef UserObject))))
  ∧ NodeInterface
      ∈ declaredInterfaces
          (typeAt exampleHeap (rawTypeOf (GraphQLList (NamedRef UserObject))))
  ∧ typeName (typeAt exampleHeap NodeInterface) = "Node"
  ∧ implementsInterface exampleHeap (GraphQLList (NamedRef UserObject)) "Node" = false.
Proof. repeat split. simpl. apply list_elem_of_here. Qed.

(** ** mayImplement *)

(** C2: a type may implement the name of its own raw type, whatever the
    schema and whatever the List/NonNull nesting; the first disjunct decides
    and nothing else is evaluated. *)
Theorem mayImplement_own_raw_name (h : Heap) (schema : loc) (type : GraphQLType) :
  mayImplement h schema type (typeName (typeAt h (rawTypeOf type))) = Ok true.
Proof.
  unfold mayImplement. rewrite getRawType_ok. simpl.
  by rewrite String.eqb_refl.
Qed.

(** ** Classification of syntax nodes *)

Lemma isSchemaDefinitionAST_spec (ast : ASTNode) :
  isSchemaDefinitionAST ast = true ↔ kind ast ∈ schemaDefinitionKinds.
Proof.
  unfold isSchemaDefinitionAST, schemaDefinitionKinds.
  rewrite !orb_true_iff, !String.eqb_eq, !elem_of_cons, elem_of_nil. tauto.
Qed.

Lemma isOperationDefinitionAST_spec (ast : ASTNode) :
  isOperationDefinitionAST ast = true ↔ kind ast ∈ operationDefinitionKinds.
Proof.
  unfold isOperationDefinitionAST, operationDefinitionKinds.
  rewrite !orb_true_iff, !String.eqb_eq, !elem_of_cons, elem_of_nil. tauto.
Qed.

(** C8: [isSchemaDefinitionAST] is true exactly on the eight
    schema-definition kinds, [isOperationDefinitionAST] exactly on
    [FragmentDefinition] and [OperationDefinition]; they are never both true;
    on a kind outside both sets both are false, as on [FieldDefinition]. *)
Theorem ast_classification (ast : ASTNode) :
  (isSchemaDefinitionAST ast = true ↔ kind ast ∈ schemaDefinitionKinds)
  ∧ (isOperationDefinitionAST ast = true ↔ kind ast ∈ operationDefinitionKinds)
  ∧ ¬ (isSchemaDefinitionAST ast = true ∧ isOperationDefinitionAST ast = true)
  ∧ (kind ast ∉ schemaDefinitionKinds → kind ast ∉ operationDefinitionKinds
     → isSchemaDefinitionAST ast = false ∧ isOperationDefinitionAST ast = false)
  ∧ isSchemaDefinitionAST {| kind := "FieldDefinition" |} = false
  ∧ isOperationDefinitionAST {| kind := "FieldDefinition" |} = false.
Proof.
  split; [apply isSchemaDefinitionAST_spec|].
  split; [apply isOperationDefinitionAST_spec|].
  repeat split.
  - rewrite isSchemaDefinitionAST_spec, isOperationDefinitionAST_spec.
    unfold schemaDefinitionKinds, operationDefinitionKinds.
    rewrite !elem_of_cons, !elem_of_nil.
    intros [Hs Ho]. destruct Ho as [Ho|[Ho|[]]]; rewrite Ho in Hs;
      repeat (destruct Hs as [Hs|Hs]; [discriminate|]); done.
  - apply not_true_is_false. by rewrite isSchemaDefinitionAST_spec.
  - apply not_true_is_false. by rewrite isOperationDefinitionAST_spec.
Qed.

(** ** hasID *)

Lemma getFields_named (h : Heap) (l : loc) :
  isObject (typeAt h l) ∨ isInterface (typeAt h l)
  → getFields h (NamedRef l) = fieldsOf (typeAt h l).
Proof. simpl. destruct (typeAt h l); simpl; tauto. Qed.

Lemma canHaveSelections_named (h : Heap) (l : loc) :
  canHaveSelections h (NamedRef l) = true
  ↔ isObject (typeAt h l) ∨ isInterface (typeAt h l).
Proof.
  unfold canHaveSelections. simpl.
  destruct (typeAt h l); simpl; (split; [try discriminate; auto|intros [[]|[]]; auto]).
Qed.

Lemma hasID_unfold (h : Heap) (schema : loc) (type : GraphQLType) :
  hasID h schema type
  = (_ ← invariant (canHaveSelections h (NamedRef (rawTypeOf type)))
           "RelaySchemaUtils.hasID(): Expected a concrete type or interface, got type `%s`."
           [toString h type];
     match getFields h (NamedRef (rawTypeOf type)) !! ID with
     | None => Ok JSUndefined
     | Some field =>
         Ok (JSBoolean (strictEqNamed (NamedRef (rawTypeOf (fieldType field)))
                          (getType h schema ID_TYPE)))
     end).
Proof.
  unfold hasID. rewrite getRawType_ok. cbn [mbind Result_bind].
  unfold canHaveSelections.
  destruct (invariant _ _ _) as [[]|e]; cbn [mbind Result_bind]; [|done].
  destruct (getFields h (NamedRef (rawTypeOf type)) !! ID) as [field|]; [|done].
  by rewrite getRawType_ok.
Qed.

(** On a raw type that is neither Object nor Interface, [hasID] throws the
    invariant violation that names the type it was given. *)
Lemma hasID_invariant (h : Heap) (schema : loc) (type : GraphQLType) :
  ¬ (isObject (typeAt h (rawTypeOf type)) ∨ isInterface (typeAt h (rawTypeOf type)))
  → hasID h schema type = Err (hasIDError h type).
Proof.
  intros Hno. rewrite hasID_unfold.
  destruct (canHaveSelections h (NamedRef (rawTypeOf type))) eqn:E.
  - by apply canHaveSelections_named in E.
  - reflexivity.
Qed.

(** On an Object or Interface raw type, [hasID] returns: [undefined] when
    there is no field [id], and otherwise whether the raw type of that field
    is the very object the schema registers under [ID]. *)
Lemma hasID_value (h : Heap) (schema : loc) (type : GraphQLType) :
  isObject (typeAt h (rawTypeOf type)) ∨ isInterface (typeAt h (rawTypeOf type))
  → hasID h schema type
    = Ok match fieldsOf (typeAt h (rawTypeOf type)) !! "id" with
         | None => JSUndefined
         | Some field =>
             JSBoolean
               (bool_decide
                  (getTypeMap h schema !! "ID" = Some (rawTypeOf (fieldType field))))
         end.
Proof.
  intros Hobj. rewrite hasID_unfold.
  rewrite (proj2 (canHaveSelections_named h _) Hobj).
  rewrite getFields_named by done. unfold ID. cbn [invariant mbind Result_bind].
  destruct (fieldsOf (typeAt h (rawTypeOf type)) !! "id") as [field|]; [|done].
  do 2 f_equal. unfold getType, ID_TYPE.
  destruct (getTypeMap h schema !! "ID") as [l|]; simpl.
  - destruct (decide (rawTypeOf (fieldType field) = l)) as [Heq|Hne].
    + rewrite (proj2 (Nat.eqb_eq _ _) Heq). symmetry. apply bool_decide_eq_true_2.
      by rewrite Heq.
    + rewrite (proj2 (Nat.eqb_neq _ _) Hne). symmetry. apply bool_decide_eq_false_2.
      intros [= Heq]. by apply Hne.
  - reflexivity.
Qed.

(** What [hasID] computes, path by path: it throws, with the invariant
    violation that names the type it was given, exactly when the raw type is
    neither Object nor Interface.  Otherwise it throws nothing, and its value
    is [true] exactly when the raw type has a field [id] whose raw type is the
    very type object the schema registers under [ID], and [false] when the
    field is there and the schema has no type [ID].  On the one remaining
    path, the absent field, the guard [idField && ...] lets [undefined]
    through, although the function is declared to return a boolean. *)
Lemma hasID_behaviour (h : Heap) (schema : loc) (type : GraphQLType) :
  ((∃ e, hasID h schema type = Err e)
   ↔ ¬ (isObject (typeAt h (rawTypeOf type))
        ∨ isInterface (typeAt h (rawTypeOf type))))
  ∧ (∀ e, hasID h schema type = Err e → e = hasIDError h type)
  ∧ (isObject (typeAt h (rawTypeOf type)) ∨ isInterface (typeAt h (rawTypeOf type))
     → ∃ v, hasID h schema type = Ok v
          ∧ (v = JSBoolean true
             ↔ ∃ field, fieldsOf (typeAt h (rawTypeOf type)) !! "id" = Some field
                        ∧ getTypeMap h schema !! "ID"
                          = Some (rawTypeOf (fieldType field)))
          ∧ (v = JSUndefined ↔ fieldsOf (typeAt h (rawTypeOf type)) !! "id" = None)
          ∧ (is_Some (fieldsOf (typeAt h (rawTypeOf type)) !! "id")
             → getTypeMap h schema !! "ID" = None → v = JSBoolean false)
          ∧ (fieldsOf (typeAt h (rawTypeOf type)) !! "id" = None
             ∨ getTypeMap h schema !! "ID" = None
             → ToBoolean v = false)).
Proof.
  assert ((isObject (typeAt h (rawTypeOf type))
           ∨ isInterface (typeAt h (rawTypeOf type)))
          ∨ ¬ (isObject (typeAt h (rawTypeOf type))
               ∨ isInterface (typeAt h (rawTypeOf type)))) as [Hobj|Hno].
  { destruct (typeAt h (rawTypeOf type)); simpl; tauto. }
  - pose proof (hasID_value h schema type Hobj) as Hv. rewrite Hv.
    split; [|split].
    + split; [intros [e [=]]|done].
    + intros e [=].
    + intros _. eexists. split; [reflexivity|].
      destruct (fieldsOf (typeAt h (rawTypeOf type)) !! "id") as [field|].
      * split; [|split; [|split]].
        -- split.
           ++ intros [= Hb]. apply bool_decide_eq_true_1 in Hb. eauto.
           ++ intros (f & [= <-] & Hf). by rewrite bool_decide_eq_true_2.
        -- split; discriminate.
        -- intros _ Hnone. rewrite bool_decide_eq_false_2; [done|]. by rewrite Hnone.
        -- intros [[=]|Hnone]. simpl. rewrite bool_decide_eq_false_2; [done|].
           by rewrite Hnone.
      * split; [|split; [|split]]; [|done| |done].
        -- split; [discriminate|]. by intros (f & [=] & _).
        -- by intros [? [=]].
  - rewrite (hasID_invariant h schema type Hno). split; [|split].
    + split; [done|]. eauto.
    + by intros e [= <-].
    + done.
Qed.

(** C5: [hasID] is declared [: boolean] and is to return [false], without
    an error, when the field [id] is absent.  The code misses it: [Query] is an
    Object type without a field [id], and the value of [hasID] on it is
    [undefined], the left operand of [idField && ...], not the boolean
    [false]; no error is thrown. *)
Theorem hasID_absent_field_undefined :
  isObject (typeAt exampleHeap (rawTypeOf (NamedRef QueryObject)))
  ∧ fieldsOf (typeAt exampleHeap (rawTypeOf (NamedRef QueryObject))) !! "id" = None
  ∧ hasID exampleHeap 0 (NamedRef QueryObject) = Ok JSUndefined
  ∧ hasID exampleHeap 0 (NamedRef QueryObject) ≠ Ok (JSBoolean false).
Proof. repeat split. vm_compute. discriminate. Qed.

(** ** schemaWithDirectives *)

Section UniqueNames.

Implicit Types (ds : list GraphQLDirective) (seen : gset string).

Lemma validateUniqueNames_cons directive ds seen :
  validateUniqueNames (directive :: ds) seen
  = if bool_decide (name directive ∈ seen)
    then Err (duplicateDirectiveError (name directive))
    else validateUniqueNames ds ({[name directive]} ∪ seen).
Proof. simpl. by destruct (bool_decide (name directive ∈ seen)). Qed.

(** The scan succeeds exactly when the names are pairwise distinct and
    none was seen before. *)
Lemma validateUniqueNames_Ok ds seen :
  (∃ seen', validateUniqueNames ds seen = Ok seen')
  ↔ NoDup (name <$> ds) ∧ ∀ n, n ∈ name <$> ds → n ∉ seen.
Proof.
  revert seen. induction ds as [|d ds IH]; intros seen.
  - simpl. split; [|by eauto]. intros _. split; [constructor|].
    intros n Hn. by apply elem_of_nil in Hn.
  - rewrite validateUniqueNames_cons, fmap_cons, NoDup_cons.
    case_bool_decide as Hd.
    + split; [by intros [? [=]]|]. intros [_ Hnew]. exfalso.
      apply (Hnew (name d)); [apply list_elem_of_here|done].
    + rewrite IH. split.
      * intros [Hnd Hnew]. repeat split; [|done|].
        -- intros Hin. apply (Hnew _ Hin).
           by apply elem_of_union_l, elem_of_singleton.
        -- intros n [->|Hn]%elem_of_cons; [done|].
           intros Hs. apply (Hnew _ Hn). by apply elem_of_union_r.
      * intros [[Hd' Hnd] Hnew]. split; [done|].
        intros n Hn [->%elem_of_singleton|Hs]%elem_of_union; [done|].
        apply (Hnew n); [by apply list_elem_of_further|done].
Qed.

(** When the scan throws, it names the first name that was met before:
    the names before it are pairwise distinct and new, and it is one of
    them or was seen already. *)
Lemma validateUniqueNames_Err ds seen e :
  validateUniqueNames ds seen = Err e
  → ∃ n before after,
      name <$> ds = (before ++ n :: after)%list
      ∧ NoDup before
      ∧ (∀ x, x ∈ before → x ∉ seen)
      ∧ (n ∈ before ∨ n ∈ seen)
      ∧ e = duplicateDirectiveError n.
Proof.
  revert seen. induction ds as [|d ds IH]; intros seen; [discriminate|].
  rewrite validateUniqueNames_cons. case_bool_decide as Hd.
  - intros [= <-]. exists (name d), [], (name <$> ds).
    repeat split; [constructor| |by right].
    intros x Hx. by apply elem_of_nil in Hx.
  - intros Herr. destruct (IH _ Herr) as (n & before & after & Hsplit & Hnd & Hnew & Hn & ->).
    exists n, (name d :: before), after. rewrite fmap_cons, Hsplit.
    repeat split.
    + apply NoDup_cons. split; [|done]. intros Hin.
      apply (Hnew _ Hin). by apply elem_of_union_l, elem_of_singleton.
    + intros x [->|Hx]%elem_of_cons; [done|].
      intros Hs. apply (Hnew _ Hx). by apply elem_of_union_r.
    + destruct Hn as [Hn|[->%elem_of_singleton|Hn]%elem_of_union].
      * left. by apply list_elem_of_further.
      * left. apply list_elem_of_here.
      * by right.
Qed.

Lemma validateUniqueNames_cases ds seen :
  (∃ seen', validateUniqueNames ds seen = Ok seen')
  ∨ (∃ e, validateUniqueNames ds seen = Err e).
Proof. destruct (validateUniqueNames ds seen); eauto. Qed.

End UniqueNames.

(** A list with a repeated entry is not duplicate-free. *)
Lemma repeated_not_NoDup (n : string) (before after : list string) :
  n ∈ before → ¬ NoDup (before ++ n :: after)%list.
Proof.
  intros Hin Hnd. apply NoDup_app in Hnd as (_ & Hdisj & _).
  apply (Hdisj n Hin). apply list_elem_of_here.
Qed.

Lemma assertNamedType_named (h : Heap) (l : loc) :
  assertNamedType h (NamedRef l) = Ok (NamedRef l).
Proof. unfold assertNamedType. simpl. by rewrite Nat.eqb_refl. Qed.

Lemma mapResult_assertNamedType (h : Heap) (m : gmap string loc) :
  mapResult (assertNamedType h) (Object_values m) = Ok (Object_values m).
Proof.
  unfold Object_values. induction (map_to_list m) as [|kv kvs IH]; [done|].
  rewrite fmap_cons. cbn [mapResult]. rewrite assertNamedType_named.
  cbn [mbind Result_bind]. by rewrite IH.
Qed.

Lemma schemaWithDirectives_unfold (h : Heap) (schema : loc)
    (directives : list GraphQLDirective) :
  schemaWithDirectives h schema directives
  = match validateUniqueNames (getDirectives h schema ++ directives)%list ∅ with
    | Ok _ => Ok (newGraphQLSchema h (copyConfig h schema directives))
    | Err e => Err e
    end.
Proof.
  unfold schemaWithDirectives.
  destruct (validateUniqueNames _ _); cbn [mbind Result_bind]; [|done].
  by rewrite mapResult_assertNamedType.
Qed.

Lemma alloc_new (h : Heap) (s : GraphQLSchema) :
  schemaAt (alloc h s).2 (alloc h s).1 = s.
Proof. simpl. by rewrite Nat.eqb_refl. Qed.

Lemma alloc_old (h : Heap) (s : GraphQLSchema) (l : loc) :
  l ≠ (alloc h s).1 → schemaAt (alloc h s).2 l = schemaAt h l.
Proof. simpl. intros Hne. by rewrite (proj2 (Nat.eqb_neq _ _) Hne). Qed.

Lemma newGraphQLSchema_directives (h : Heap) (config : GraphQLSchemaConfig) :
  getDirectives (newGraphQLSchema h config).2 (newGraphQLSchema h config).1
  = directives config.
Proof. unfold getDirectives, newGraphQLSchema. by rewrite alloc_new. Qed.

(** C6: [schemaWithDirectives] throws exactly when the sequence of the
    schema's directives followed by the new ones has two entries of the same
    name; the error then names the first name of the sequence that repeats an
    earlier one; when all names are distinct it succeeds and the directives
    of the result are that sequence, so one new directive of a fresh name
    gives one directive more. *)
Theorem schemaWithDirectives_unique_names (h : Heap) (schema : loc)
    (newDirectives : list GraphQLDirective) :
  ((∃ e, schemaWithDirectives h schema newDirectives = Err e)
   ↔ ¬ NoDup (name <$> (getDirectives h schema ++ newDirectives)%list))
  ∧ (∀ e, schemaWithDirectives h schema newDirectives = Err e
       → ∃ n before after,
           name <$> (getDirectives h schema ++ newDirectives)%list
           = (before ++ n :: after)%list
           ∧ NoDup before ∧ n ∈ before
           ∧ e = duplicateDirectiveError n)
  ∧ (NoDup (name <$> (getDirectives h schema ++ newDirectives)%list)
     → ∃ schema' h',
         schemaWithDirectives h schema newDirectives = Ok (schema', h')
         ∧ getDirectives h' schema' = (getDirectives h schema ++ newDirectives)%list)
  ∧ (∀ d, NoDup (name <$> getDirectives h schema)
       → name d ∉ name <$> getDirectives h schema
       → ∃ schema' h',
           schemaWithDirectives h schema [d] = Ok (schema', h')
           ∧ length (getDirectives h' schema') = length (getDirectives h schema) + 1).
Proof.
  assert (Hok : ∀ ds, NoDup (name <$> (getDirectives h schema ++ ds)%list)
     → ∃ schema' h', schemaWithDirectives h schema ds = Ok (schema', h')
         ∧ getDirectives h' schema' = (getDirectives h schema ++ ds)%list).
  { intros ds Hnd. rewrite schemaWithDirectives_unfold.
    destruct (proj2 (validateUniqueNames_Ok (getDirectives h schema ++ ds) ∅))
      as [seen ->].
    { split; [done|]. intros n _. apply not_elem_of_empty. }
    destruct (newGraphQLSchema h (copyConfig h schema ds)) as [schema' h'] eqn:E.
    exists schema', h'. split; [done|].
    pose proof (newGraphQLSchema_directives h (copyConfig h schema ds)) as Hd.
    by rewrite E in Hd. }
  assert (Herr : ∀ e, schemaWithDirectives h schema newDirectives = Err e
     → ∃ n before after,
         name <$> (getDirectives h schema ++ newDirectives)%list
         = (before ++ n :: after)%list
         ∧ NoDup before ∧ n ∈ before ∧ e = duplicateDirectiveError n).
  { intros e. rewrite schemaWithDirectives_unfold.
    destruct (validateUniqueNames _ _) as [seen|e'] eqn:E; [discriminate|].
    intros [= ->].
    destruct (validateUniqueNames_Err _ _ _ E)
      as (n & before & after & Hsplit & Hnd & _ & [Hn|Hn] & ->).
    - exists n, before, after. done.
    - by apply not_elem_of_empty in Hn. }
  repeat split.
  - intros [e He]. destruct (Herr e He) as (n & before & after & -> & _ & Hn & _).
    by apply repeated_not_NoDup.
  - intros Hdup.
    destruct (schemaWithDirectives h schema newDirectives) as [[schema' h']|e] eqn:E;
      [|by eauto].
    exfalso. apply Hdup. rewrite schemaWithDirectives_unfold in E.
    destruct (validateUniqueNames _ _) as [seen|e'] eqn:Ev; [|discriminate].
    by apply (proj1 (validateUniqueNames_Ok _ ∅)); eauto.
  - exact Herr.
  - apply Hok.
  - intros d Hnd Hfresh.
    destruct (Hok [d]) as (schema' & h' & Heq & Hd).
    { rewrite fmap_app. apply NoDup_app. repeat split; [done| |].
      - intros n Hn [->|[]%elem_of_nil]%elem_of_cons. done.
      - apply NoDup_singleton. }
    exists schema', h'. split; [done|].
    rewrite Hd, length_app. reflexivity.
Qed.

(** C10: the schema's own directives are scanned too.  When two of them
    share a name, [schemaWithDirectives] with no new directive throws the
    duplicate-directive error for a name that occurs twice (the first name of
    the list that repeats an earlier one); it does not return a copy. *)
Theorem schemaWithDirectives_repeated_in_base (h : Heap) (schema : loc) :
  ¬ NoDup (name <$> getDirectives h schema)
  → ∃ n before after,
      name <$> getDirectives h schema = (before ++ n :: after)%list
      ∧ NoDup before ∧ n ∈ before
      ∧ schemaWithDirectives h schema [] = Err (duplicateDirectiveError n).
Proof.
  intros Hdup. rewrite schemaWithDirectives_unfold, app_nil_r.
  destruct (validateUniqueNames (getDirectives h schema) ∅) as [seen|e] eqn:E.
  - exfalso. apply Hdup. by apply (proj1 (validateUniqueNames_Ok _ ∅)); eauto.
  - destruct (validateUniqueNames_Err _ _ _ E)
      as (n & before & after & Hsplit & Hnd & _ & [Hn|Hn] & ->).
    + exists n, before, after. done.
    + by apply not_elem_of_empty in Hn.
Qed.

Lemma schemaWithDirectives_repeated_in_base_witness :
  ¬ NoDup (name <$> getDirectives exampleHeap 1)
  ∧ ∃ n before after,
      name <$> getDirectives exampleHeap 1 = (before ++ n :: after)%list
      ∧ NoDup before ∧ n ∈ before
      ∧ schemaWithDirectives exampleHeap 1 [] = Err (duplicateDirectiveError n).
Proof.
  assert (Hdup : ¬ NoDup (name <$> getDirectives exampleHeap 1)).
  { apply (bool_decide_eq_false_1 _). vm_compute. reflexivity. }
  split; [exact Hdup|].
  apply (schemaWithDirectives_repeated_in_base exampleHeap 1 Hdup).
Defined.

(** ** The copy made by schemaWithDirectives *)

Lemma wellFormedSchema_keys (h : Heap) (schema : loc) (k : string) (l : loc) :
  wellFormedSchema h schema = true
  → getTypeMap h schema !! k = Some l
  → typeName (typeAt h l) = k.
Proof.
  unfold wellFormedSchema. rewrite !andb_true_iff.
  intros [[[Hkeys _] _] _] Hl.
  rewrite forallb_forall in Hkeys.
  apply elem_of_map_to_list, list_elem_of_In in Hl.
  by apply Hkeys, String.eqb_eq in Hl.
Qed.

Section TypeMap.

Variables (h : Heap) (m : gmap string loc).

Lemma typeMapReducer_step (acc : gmap string loc) (type : GraphQLType) :
  acc ⊆ m → known h m type
  → typeMapReducer h acc type ⊆ m
    ∧ acc ⊆ typeMapReducer h acc type
    ∧ typeMapReducer h acc type !! typeName (typeAt h (rawTypeOf type))
      = Some (rawTypeOf type).
Proof.
  intros Hsub Hknown. unfold typeMapReducer. rewrite unwrapAll_rawTypeOf.
  destruct (acc !! typeName (typeAt h (rawTypeOf type))) as [l|] eqn:E.
  - split; [done|]. split; [done|].
    pose proof (lookup_weaken _ _ _ _ E Hsub) as Hm.
    unfold known in Hknown. congruence.
  - split; [by apply insert_subseteq_l|].
    split; [by apply insert_subseteq|].
    apply lookup_insert_eq.
Qed.

Lemma foldl_typeMapReducer (initialTypes : list GraphQLType) (acc : gmap string loc) :
  acc ⊆ m → Forall (known h m) initialTypes
  → foldl (typeMapReducer h) acc initialTypes ⊆ m
    ∧ acc ⊆ foldl (typeMapReducer h) acc initialTypes
    ∧ Forall (fun type =>
                foldl (typeMapReducer h) acc initialTypes
                  !! typeName (typeAt h (rawTypeOf type)) = Some (rawTypeOf type))
        initialTypes.
Proof.
  revert acc. induction initialTypes as [|type rest IH]; intros acc Hsub Hall.
  - simpl. split; [done|]. split; [done|constructor].
  - apply Forall_cons in Hall as [Hknown Hrest]. simpl.
    destruct (typeMapReducer_step acc type Hsub Hknown) as (Hsub' & Hmono & Hhere).
    destruct (IH _ Hsub' Hrest) as (Hfinal & Hmono' & Hall').
    split; [done|]. split; [by etrans|].
    constructor; [|done].
    by apply (lookup_weaken _ _ _ _ Hhere).
Qed.

End TypeMap.

(** The type map the constructor builds from a well-formed schema's own
    roots and types is that schema's type map. *)
Lemma copyConfig_typeMap (h : Heap) (schema : loc) (ds : list GraphQLDirective) :
  wellFormedSchema h schema = true
  → getTypeMap (newGraphQLSchema h (copyConfig h schema ds)).2
      (newGraphQLSchema h (copyConfig h schema ds)).1
    = getTypeMap h schema.
Proof.
  intros Hwf. unfold getTypeMap at 1, newGraphQLSchema. rewrite alloc_new.
  cbn [_typeMap copyConfig query mutation subscription types].
  set (m := getTypeMap h schema).
  set (initialTypes := NamedRef _ :: _).
  assert (Hknown : Forall (known h m) initialTypes).
  { pose proof Hwf as Hwf'. unfold wellFormedSchema in Hwf'.
    rewrite !andb_true_iff in Hwf'. destruct Hwf' as [[[_ Hq] Hm] Hs].
    subst initialTypes. constructor; [by apply bool_decide_eq_true_1 in Hq|].
    rewrite !Forall_app. repeat split.
    - destruct (getMutationType h schema) as [l|]; [|constructor].
      repeat constructor. by apply bool_decide_eq_true_1 in Hm.
    - destruct (getSubscriptionType h schema) as [l|]; [|constructor].
      repeat constructor. by apply bool_decide_eq_true_1 in Hs.
    - unfold Object_values. apply Forall_fmap, Forall_forall.
      intros [k l] Hkl%elem_of_map_to_list. unfold known. simpl.
      by rewrite (wellFormedSchema_keys h schema k l Hwf Hkl). }
  destruct (foldl_typeMapReducer h m initialTypes ∅ (map_empty_subseteq m) Hknown)
    as (Hsub & _ & Hall).
  apply (anti_symm (⊆)); [done|].
  apply map_subseteq_spec. intros k l Hkl.
  rewrite Forall_forall in Hall.
  assert (Hin : NamedRef l ∈ initialTypes).
  { subst initialTypes. apply list_elem_of_further.
    rewrite !elem_of_app. right. right.
    unfold Object_values. apply list_elem_of_fmap. exists (k, l).
    split; [done|]. by apply elem_of_map_to_list. }
  specialize (Hall _ Hin). simpl in Hall.
  by rewrite (wellFormedSchema_keys h schema k l Hwf Hkl) in Hall.
Qed.

(** C7: on success the result is a new schema object, at an address that
    was free; its root types are those of the input schema; its type map is
    the input's type map, for an input built by the constructor; no object of
    the heap is written: the input schema (directives, type map, roots) and
    every other schema are as before, and so are the type objects. *)
Theorem schemaWithDirectives_frame (h h' : Heap) (schema schema' : loc)
    (newDirectives : list GraphQLDirective) :
  schema < nextSchema h
  → schemaWithDirectives h schema newDirectives = Ok (schema', h')
  → schema' = nextSchema h ∧ schema' ≠ schema
    ∧ getQueryType h' schema' = getQueryType h schema
    ∧ getMutationType h' schema' = getMutationType h schema
    ∧ getSubscriptionType h' schema' = getSubscriptionType h schema
    ∧ (wellFormedSchema h schema = true
       → getTypeMap h' schema' = getTypeMap h schema)
    ∧ schemaAt h' schema = schemaAt h schema
    ∧ (∀ l, l ≠ schema' → schemaAt h' l = schemaAt h l)
    ∧ typeAt h' = typeAt h.
Proof.
  intros Hlive. rewrite schemaWithDirectives_unfold.
  destruct (validateUniqueNames _ _) as [seen|e]; [|discriminate].
  pose proof (copyConfig_typeMap h schema newDirectives) as Hmap.
  unfold newGraphQLSchema, alloc in *. intros [= <- <-].
  unfold getQueryType, getMutationType, getSubscriptionType in *.
  cbn [schemaAt nextSchema typeAt fst snd] in *.
  rewrite Nat.eqb_refl in *.
  split; [done|]. split; [lia|]. do 4 (split; [done|]).
  split.
  - by rewrite (proj2 (Nat.eqb_neq schema (nextSchema h))) by lia.
  - split; [|done]. intros l Hl. by rewrite (proj2 (Nat.eqb_neq _ _) Hl).
Qed.

Lemma schemaWithDirectives_frame_witness :
  0 < nextSchema exampleHeap
  ∧ wellFormedSchema exampleHeap 0 = true
  ∧ let h' := (newGraphQLSchema exampleHeap (copyConfig exampleHeap 0 [relayDirective])).2 in
    schemaWithDirectives exampleHeap 0 [relayDirective] = Ok (3, h')
    ∧ 3 = nextSchema exampleHeap ∧ 3 ≠ 0
    ∧ getQueryType h' 3 = getQueryType exampleHeap 0
    ∧ getMutationType h' 3 = getMutationType exampleHeap 0
    ∧ getSubscriptionType h' 3 = getSubscriptionType exampleHeap 0
    ∧ (wellFormedSchema exampleHeap 0 = true
       → getTypeMap h' 3 = getTypeMap exampleHeap 0)
    ∧ schemaAt h' 0 = schemaAt exampleHeap 0
    ∧ (∀ l, l ≠ 3 → schemaAt h' l = schemaAt exampleHeap l)
    ∧ typeAt h' = typeAt exampleHeap.
Proof.
  split; [simpl; lia|]. split; [vm_compute; reflexivity|].
  split; [vm_compute; reflexivity|].
  apply (schemaWithDirectives_frame exampleHeap _ 0 3 [relayDirective]).
  - simpl; lia.
  - vm_compute; reflexivity.
Defined.

(** ** getTypeFromAST *)

Lemma wrapLikeNullable_nullable (n : NullableTypeNode) (l : loc) :
  instanceofGraphQLNonNull (wrapLikeNullable n (NamedRef l)) = false.
Proof. by destruct n. Qed.

Lemma typeFromAST_wrapLike (h : Heap) (schema : loc) :
  (∀ ast, typeFromAST h schema ast
          = Ok (wrapLike ast <$> getType h schema (leafName ast)))
  ∧ (∀ ast, typeFromNullableAST h schema ast
            = Ok (wrapLikeNullable ast <$> getType h schema (leafNameNullable ast))).
Proof.
  apply TypeNode_mutind.
  - intros n IH. simpl. exact IH.
  - intros n IH. simpl. rewrite IH. cbn [mbind Result_bind].
    unfold getType. destruct (getTypeMap h schema !! leafNameNullable n) as [l|]; [|done].
    simpl. unfold newGraphQLNonNull. by rewrite wrapLikeNullable_nullable.
  - intros value. simpl. by destruct (getType h schema value).
  - intros t IH. simpl. rewrite IH. cbn [mbind Result_bind].
    by destruct (getType h schema (leafName t)).
Qed.

Lemma getTypeFromAST_value (h : Heap) (schema : loc) (ast : TypeNode) :
  getTypeFromAST h schema ast
  = match getTypeMap h schema !! leafName ast with
    | Some l => Ok (wrapLike ast (NamedRef l))
    | None => Err (unknownTypeError (print ast))
    end.
Proof.
  unfold getTypeFromAST. rewrite (proj1 (typeFromAST_wrapLike h schema)).
  cbn [mbind Result_bind]. unfold getType.
  by destruct (getTypeMap h schema !! leafName ast).
Qed.

(** The rebuilt type has the layers of the node: when the leaf type carries
    the leaf name, the type prints as the node does. *)
Lemma toString_wrapLike (h : Heap) (l : loc) :
  (∀ ast, typeName (typeAt h l) = leafName ast
          → toString h (wrapLike ast (NamedRef l)) = print ast)
  ∧ (∀ ast, typeName (typeAt h l) = leafNameNullable ast
            → toString h (wrapLikeNullable ast (NamedRef l)) = printNullable ast).
Proof.
  apply TypeNode_mutind; simpl.
  - auto.
  - intros n IH Hn. by rewrite IH.
  - auto.
  - intros t IH Hn. by rewrite IH.
Qed.

Lemma rawTypeOf_wrapLike (l : loc) :
  (∀ ast, rawTypeOf (wrapLike ast (NamedRef l)) = l)
  ∧ (∀ ast, rawTypeOf (wrapLikeNullable ast (NamedRef l)) = l).
Proof. apply TypeNode_mutind; simpl; auto. Qed.

(** C9: [getTypeFromAST] throws exactly when the schema has no type of the
    leaf name of the node; the error is then the unknown-type invariant
    violation, whose message contains the printed node; otherwise the result is
    the schema's type of that name under the List/NonNull layers of the
    node. *)
Theorem getTypeFromAST_unknown_type (h : Heap) (schema : loc) (ast : TypeNode) :
  ((∃ e, getTypeFromAST h schema ast = Err e)
   ↔ getTypeMap h schema !! leafName ast = None)
  ∧ (∀ e, getTypeFromAST h schema ast = Err e
       → e = unknownTypeError (print ast)
         ∧ ∃ message, e = InvariantViolation message ∧ occursIn (print ast) message)
  ∧ (∀ l, getTypeMap h schema !! leafName ast = Some l
       → getTypeFromAST h schema ast = Ok (wrapLike ast (NamedRef l))
         ∧ rawTypeOf (wrapLike ast (NamedRef l)) = l
         ∧ (typeName (typeAt h l) = leafName ast
            → toString h (wrapLike ast (NamedRef l)) = print ast)).
Proof.
  rewrite getTypeFromAST_value.
  split; [|split].
  - destruct (getTypeMap h schema !! leafName ast) as [l|].
    + split; [by intros [e [=]]|discriminate].
    + split; [done|]. eauto.
  - intros e He. destruct (getTypeMap h schema !! leafName ast) as [l|]; [discriminate|].
    injection He as <-. split; [done|].
    eexists. split; [reflexivity|].
    exists "RelaySchemaUtils: Unknown type `", "`.". reflexivity.
  - intros l ->. split; [done|]. split.
    + apply rawTypeOf_wrapLike.
    + apply toString_wrapLike.
Qed.

(** ** The scenario of the concrete schema, evaluated *)

Example rawType_of_wrapped_Int :
  getRawType (GraphQLNonNull (GraphQLList (GraphQLNonNull (NamedRef IntScalar))))
  = Ok (NamedRef IntScalar).
Proof. reflexivity. Qed.

Example Entity_mayImplement_Node :
  mayImplement exampleHeap 0 (NamedRef EntityUnion) "Node" = Ok true.
Proof. vm_compute. reflexivity. Qed.

Example listed_User_mayImplement_Node :
  mayImplement exampleHeap 0 (GraphQLList (GraphQLNonNull (NamedRef UserObject))) "Node"
  = Ok true.
Proof. vm_compute. reflexivity. Qed.

Example User_hasID :
  hasID exampleHeap 0 (GraphQLNonNull (NamedRef UserObject)) = Ok (JSBoolean true).
Proof. vm_compute. reflexivity. Qed.

Example Entity_hasID_throws :
  hasID exampleHeap 0 (GraphQLList (NamedRef EntityUnion))
  = Err (hasIDError exampleHeap (GraphQLList (NamedRef EntityUnion))).
Proof. vm_compute. reflexivity. Qed.

(** The field [id] of [Post] has a type named [ID] that is not the schema's
    [ID] object: the comparison is by identity. *)
Example Post_hasID_by_identity :
  typeName (typeAt exampleHeap ForeignIDScalar) = typeName (typeAt exampleHeap IDScalar)
  ∧ hasID exampleHeap 0 (NamedRef PostObject) = Ok (JSBoolean false).
Proof. split; vm_compute; reflexivity. Qed.

Example User_hasID_without_ID_type :
  getType exampleHeap 2 "ID" = None
  ∧ hasID exampleHeap 2 (NamedRef UserObject) = Ok (JSBoolean false).
Proof. split; vm_compute; reflexivity. Qed.

Example add_relay_directive :
  (λ r, (r.1, getDirectives r.2 r.1))
    <$> match schemaWithDirectives exampleHeap 0 [relayDirective] with
        | Ok r => Some r
        | Err _ => None
        end
  = Some (3, [skipDirective; includeDirective; relayDirective]).
Proof. vm_compute. reflexivity. Qed.

Example add_existing_directive :
  schemaWithDirectives exampleHeap 0 [relayDirective; skipDirective]
  = Err (duplicateDirectiveError "skip").
Proof. vm_compute. reflexivity. Qed.

Example add_directive_twice :
  schemaWithDirectives exampleHeap 0 [relayDirective; relayDirective]
  = Err (duplicateDirectiveError "relay").
Proof. vm_compute. reflexivity. Qed.

Example resolve_known_type :
  getTypeFromAST exampleHeap 0
    (NonNullTypeNode (ListTypeNode (NonNullTypeNode (NamedTypeNode "User"))))
  = Ok (GraphQLNonNull (GraphQLList (GraphQLNonNull (NamedRef UserObject)))).
Proof. vm_compute. reflexivity. Qed.

Example resolve_unknown_type :
  getTypeFromAST exampleHeap 0
    (NonNullTypeNode (ListTypeNode (NonNullTypeNode (NamedTypeNode "Foo"))))
  = Err (InvariantViolation "RelaySchemaUtils: Unknown type `[Foo!]!`.").
Proof. vm_compute. reflexivity. Qed.

(** ** Further properties of the type functions *)

(** X1: [getRawType] never throws on a type; its result is a named type,
    on which it is the identity (so it is idempotent), and one more List or
    NonNull layer around the argument does not change it. *)
Theorem getRawType_idempotent (type : GraphQLType) :
  (∃ l, getRawType type = Ok (NamedRef l))
  ∧ (getRawType type ≫= getRawType) = getRawType type
  ∧ getRawType (GraphQLList type) = getRawType type
  ∧ getRawType (GraphQLNonNull type) = getRawType type.
Proof.
  rewrite !getRawType_ok. repeat split; eauto.
Qed.

Lemma isAbstractType_value (h : Heap) (type : GraphQLType) :
  isAbstractType h type
  = Ok (instanceofGraphQLInterfaceType h (NamedRef (rawTypeOf type))
        || instanceofGraphQLUnionType h (NamedRef (rawTypeOf type))).
Proof. unfold isAbstractType. by rewrite getRawType_ok. Qed.

Lemma abstract_named (h : Heap) (l : loc) :
  instanceofGraphQLInterfaceType h (NamedRef l) || instanceofGraphQLUnionType h (NamedRef l)
  = true
  ↔ isInterface (typeAt h l) ∨ isUnion (typeAt h l).
Proof.
  simpl. destruct (typeAt h l); simpl;
    (split; [try discriminate; auto|intros [[]|[]]; auto]).
Qed.

(** X2: [isAbstractType] never throws; it answers for the raw type: true
    exactly when the raw type is an Interface or a Union, under any number of
    List/NonNull layers. *)
Theorem isAbstractType_raw (h : Heap) (type : GraphQLType) :
  ∃ b, isAbstractType h type = Ok b
       ∧ (b = true ↔ isInterface (typeAt h (rawTypeOf type))
                     ∨ isUnion (typeAt h (rawTypeOf type)))
       ∧ isAbstractType h (GraphQLList type) = Ok b
       ∧ isAbstractType h (GraphQLNonNull type) = Ok b.
Proof.
  eexists. rewrite !isAbstractType_value. split; [reflexivity|].
  split; [apply abstract_named|]. split; reflexivity.
Qed.

Lemma assertNamedType_wrapper (h : Heap) (type : GraphQLType) :
  instanceofGraphQLList type || instanceofGraphQLNonNull type = true
  → assertNamedType h type = Err (namedTypeError h type).
Proof.
  destruct type as [l|t|t]; [discriminate| |]; intros _;
    unfold assertNamedType; simpl; by rewrite unwrapAll_rawTypeOf.
Qed.

(** X3: [assertNamedType] succeeds exactly on a named type, and then returns
    its argument; on a List or NonNull it throws the invariant violation that
    prints the type; on the result of [getRawType] it always succeeds. *)
Theorem assertNamedType_named_only (h : Heap) (type : GraphQLType) :
  ((∃ r, assertNamedType h type = Ok r) ↔ ∃ l, type = NamedRef l)
  ∧ (∀ r, assertNamedType h type = Ok r → r = type)
  ∧ (∀ e, assertNamedType h type = Err e → e = namedTypeError h type)
  ∧ (getRawType type ≫= assertNamedType h) = getRawType type.
Proof.
  split; [|split; [|split]].
  - destruct type as [l|t|t].
    + rewrite assertNamedType_named. split; eauto.
    + rewrite assertNamedType_wrapper by done. split; [by intros [? [=]]|by intros [? [=]]].
    + rewrite assertNamedType_wrapper by done. split; [by intros [? [=]]|by intros [? [=]]].
  - destruct type as [l|t|t].
    + rewrite assertNamedType_named. by intros r [= <-].
    + by rewrite assertNamedType_wrapper.
    + by rewrite assertNamedType_wrapper.
  - destruct type as [l|t|t].
    + by rewrite assertNamedType_named.
    + rewrite assertNamedType_wrapper by done. by intros e [= <-].
    + rewrite assertNamedType_wrapper by done. by intros e [= <-].
  - rewrite getRawType_ok. cbn [mbind Result_bind]. apply assertNamedType_named.
Qed.

Lemma rawTypeOf_getSingularType (type : GraphQLType) :
  rawTypeOf (getSingularType type) = rawTypeOf type.
Proof. induction type; simpl; auto. Qed.

Lemma mayImplement_raw (h : Heap) (schema : loc) (type : GraphQLType) (n : string) :
  mayImplement h schema type n = mayImplement h schema (NamedRef (rawTypeOf type)) n.
Proof. unfold mayImplement. by rewrite !getRawType_ok. Qed.

Lemma hasID_raw_value (h : Heap) (schema : loc) (type : GraphQLType) (v : JSValue) :
  hasID h schema type = Ok v ↔ hasID h schema (NamedRef (rawTypeOf type)) = Ok v.
Proof.
  rewrite !hasID_unfold. simpl rawTypeOf.
  destruct (canHaveSelections h (NamedRef (rawTypeOf type))); simpl; [done|].
  split; discriminate.
Qed.

(** X4: [getSingularType] is idempotent and keeps the raw type: taking the
    raw type, asking [isAbstractType] or asking [mayImplement] gives the same
    answer before and after it. *)
Theorem getSingularType_idempotent_keeps_raw (h : Heap) (schema : loc)
    (type : GraphQLType) (n : string) :
  getSingularType (getSingularType type) = getSingularType type
  ∧ getRawType (getSingularType type) = getRawType type
  ∧ isAbstractType h (getSingularType type) = isAbstractType h type
  ∧ mayImplement h schema (getSingularType type) n = mayImplement h schema type n.
Proof.
  split; [|split; [|split]].
  - induction type; simpl; auto.
  - by rewrite !getRawType_ok, rawTypeOf_getSingularType.
  - by rewrite !isAbstractType_value, rawTypeOf_getSingularType.
  - by rewrite (mayImplement_raw _ _ (getSingularType type)),
       rawTypeOf_getSingularType, <- mayImplement_raw.
Qed.

(** X5: [mayImplement] sees its type argument only through the raw type:
    List and NonNull layers, in any number and order, change neither the
    answer nor an error. *)
Theorem mayImplement_ignores_wrappers (h : Heap) (schema : loc)
    (type : GraphQLType) (n : string) :
  mayImplement h schema (GraphQLList type) n = mayImplement h schema type n
  ∧ mayImplement h schema (GraphQLNonNull type) n = mayImplement h schema type n
  ∧ (∀ other, rawTypeOf other = rawTypeOf type
       → mayImplement h schema other n = mayImplement h schema type n).
Proof.
  split; [|split].
  - by rewrite (mayImplement_raw _ _ (GraphQLList type)), <- mayImplement_raw.
  - by rewrite (mayImplement_raw _ _ (GraphQLNonNull type)), <- mayImplement_raw.
  - intros other Heq. by rewrite (mayImplement_raw _ _ other), Heq, <- mayImplement_raw.
Qed.

(** X6: [hasID] sees its type argument only through the raw type as far as
    its value goes: it throws on a wrapped type exactly when it throws on the
    raw type, and otherwise returns the same value; only the text of the error
    differs, which prints the type as it was given. *)
Theorem hasID_ignores_wrappers (h : Heap) (schema : loc) (type : GraphQLType) :
  (∀ v, hasID h schema type = Ok v
        ↔ hasID h schema (NamedRef (rawTypeOf type)) = Ok v)
  ∧ ((∃ e, hasID h schema type = Err e)
     ↔ ∃ e, hasID h schema (NamedRef (rawTypeOf type)) = Err e)
  ∧ (∀ e, hasID h schema (GraphQLList type) = Err e
        → e = hasIDError h (GraphQLList type)).
Proof.
  split; [apply hasID_raw_value|]. split.
  - pose proof (hasID_raw_value h schema type) as Hv.
    destruct (hasID h schema type) as [v|e];
      destruct (hasID h schema (NamedRef (rawTypeOf type))) as [v'|e'].
    + split; by intros [? [=]].
    + by pose proof (proj1 (Hv v) eq_refl).
    + by pose proof (proj2 (Hv v') eq_refl).
    + split; eauto.
  - intros e. rewrite hasID_unfold.
    destruct (canHaveSelections h (NamedRef (rawTypeOf (GraphQLList type))));
      cbn [invariant mbind Result_bind].
    + by destruct (getFields h (NamedRef (rawTypeOf (GraphQLList type))) !! ID).
    + by intros [= <-].
Qed.

(** ** mayImplement, case by case *)

Lemma getInterfaces_objectGetInterfaces (h : Heap) (type : GraphQLType) :
  getInterfaces h type = objectGetInterfaces h type.
Proof.
  unfold getInterfaces. destruct type as [l|t|t]; simpl; [|done|done].
  by destruct (typeAt h l).
Qed.

Lemma implementsInterface_declares (h : Heap) (l : loc) (n : string) :
  implementsInterface h (NamedRef l) n = true
  ↔ declaresInterfaceNamed h (typeAt h l) n.
Proof. apply implementsInterface_named. Qed.

Lemma implementsInterface_abstract (h : Heap) (l : loc) (n : string) :
  isInterface (typeAt h l) ∨ isUnion (typeAt h l)
  → implementsInterface h (NamedRef l) n = false.
Proof.
  intros Habs. unfold implementsInterface. rewrite getInterfaces_named.
  destruct (typeAt h l); simpl in *; try done; by destruct Habs.
Qed.

(** The possible types of a named abstract type, as [mayImplement] asks for
    them. *)
Lemma hasConcreteTypeThatImplements_named (h : Heap) (schema : loc) (l : loc)
    (n : string) :
  isInterface (typeAt h l) ∨ isUnion (typeAt h l)
  → hasConcreteTypeThatImplements h schema (NamedRef l) n
    = match getPossibleTypes h schema (NamedRef l) with
      | Some cs => Ok (existsb (fun c => implementsInterface h c n) cs)
      | None => Err TypeError
      end.
Proof.
  intros Habs. unfold hasConcreteTypeThatImplements.
  rewrite isAbstractType_value. simpl rawTypeOf.
  rewrite (proj2 (abstract_named h l) Habs). cbn [mbind Result_bind].
  unfold getConcreteTypes, assertAbstractType.
  rewrite (proj2 (abstract_named h l) Habs). reflexivity.
Qed.

Lemma mayImplement_named (h : Heap) (schema : loc) (l : loc) (n : string) :
  mayImplement h schema (NamedRef l) n
  = if String.eqb (typeName (typeAt h l)) n then Ok true
    else if implementsInterface h (NamedRef l) n then Ok true
    else if instanceofGraphQLInterfaceType h (NamedRef l)
            || instanceofGraphQLUnionType h (NamedRef l)
         then hasConcreteTypeThatImplements h schema (NamedRef l) n
         else Ok false.
Proof.
  unfold mayImplement. rewrite getRawType_ok. cbn [mbind Result_bind rawTypeOf toString].
  destruct (String.eqb _ n); [done|].
  destruct (implementsInterface h (NamedRef l) n); [done|].
  by rewrite isAbstractType_value.
Qed.

(** X7: on a type whose raw type is not abstract (Object, Scalar, Enum,
    InputObject), [mayImplement] never throws and never consults the schema:
    it is true exactly when the raw type has the given name or declares an
    interface of that name. *)
Theorem mayImplement_concrete (h : Heap) (schema : loc) (type : GraphQLType)
    (n : string) :
  ¬ (isInterface (typeAt h (rawTypeOf type)) ∨ isUnion (typeAt h (rawTypeOf type)))
  → ∃ b, mayImplement h schema type n = Ok b
         ∧ (b = true ↔ typeName (typeAt h (rawTypeOf type)) = n
                       ∨ declaresInterfaceNamed h (typeAt h (rawTypeOf type)) n).
Proof.
  intros Hconcrete. rewrite mayImplement_raw, mayImplement_named.
  destruct (String.eqb_spec (typeName (typeAt h (rawTypeOf type))) n) as [Hn|Hn].
  { exists true. split; [done|]. split; auto. }
  destruct (implementsInterface h (NamedRef (rawTypeOf type)) n) eqn:Himpl.
  { exists true. split; [done|]. split; [|done]. intros _. right.
    by apply implementsInterface_declares. }
  destruct (instanceofGraphQLInterfaceType h (NamedRef (rawTypeOf type))
            || instanceofGraphQLUnionType h (NamedRef (rawTypeOf type))) eqn:Habs.
  { by apply abstract_named in Habs. }
  exists false. split; [done|]. split; [discriminate|].
  intros [Heq|Hdecl]; [done|].
  apply implementsInterface_declares in Hdecl. congruence.
Qed.

Lemma mayImplement_concrete_witness :
  ¬ (isInterface (typeAt exampleHeap (rawTypeOf (GraphQLList (NamedRef UserObject))))
     ∨ isUnion (typeAt exampleHeap (rawTypeOf (GraphQLList (NamedRef UserObject)))))
  ∧ ∃ b, mayImplement exampleHeap 0 (GraphQLList (NamedRef UserObject)) "Node" = Ok b
         ∧ (b = true
            ↔ typeName (typeAt exampleHeap (rawTypeOf (GraphQLList (NamedRef UserObject))))
              = "Node"
              ∨ declaresInterfaceNamed exampleHeap
                  (typeAt exampleHeap (rawTypeOf (GraphQLList (NamedRef UserObject))))
                  "Node").
Proof.
  assert (Hc : ¬ (isInterface (typeAt exampleHeap
                                 (rawTypeOf (GraphQLList (NamedRef UserObject))))
                  ∨ isUnion (typeAt exampleHeap
                               (rawTypeOf (GraphQLList (NamedRef UserObject)))))).
  { simpl. tauto. }
  split; [exact Hc|].
  apply (mayImplement_concrete exampleHeap 0 (GraphQLList (NamedRef UserObject)) "Node" Hc).
Defined.

Lemma existsb_implementsInterface_refs (h : Heap) (n : string) (members : list loc) :
  existsb (fun c => implementsInterface h c n) (NamedRef <$> members) = true
  ↔ ∃ m, m ∈ members ∧ declaresInterfaceNamed h (typeAt h m) n.
Proof.
  rewrite existsb_exists. split.
  - intros (c & Hin & Himpl). apply list_elem_of_In, list_elem_of_fmap in Hin.
    destruct Hin as (m & -> & Hm). exists m. split; [done|].
    by apply implementsInterface_declares.
  - intros (m & Hm & Hdecl). exists (NamedRef m). split.
    + apply list_elem_of_In, list_elem_of_fmap. eauto.
    + by apply implementsInterface_declares.
Qed.

(** X8: on a type whose raw type is a Union, [mayImplement] never throws; it
    is true exactly when the union has the given name or one of its member
    types declares an interface of that name. *)
Theorem mayImplement_union (h : Heap) (schema : loc) (type : GraphQLType)
    (n unionName : string) (members : list loc) :
  typeAt h (rawTypeOf type) = GraphQLUnionType unionName members
  → ∃ b, mayImplement h schema type n = Ok b
         ∧ (b = true
            ↔ unionName = n
              ∨ ∃ m, m ∈ members ∧ declaresInterfaceNamed h (typeAt h m) n).
Proof.
  intros Hunion. rewrite mayImplement_raw, mayImplement_named.
  assert (Habs : isInterface (typeAt h (rawTypeOf type))
                 ∨ isUnion (typeAt h (rawTypeOf type))).
  { right. by rewrite Hunion. }
  rewrite (implementsInterface_abstract h _ n Habs).
  rewrite (proj2 (abstract_named h _) Habs).
  rewrite (hasConcreteTypeThatImplements_named h schema _ n Habs).
  rewrite Hunion. cbn [typeName].
  destruct (String.eqb_spec unionName n) as [Hn|Hn].
  { exists true. split; [done|]. split; auto. }
  unfold getPossibleTypes, instanceofGraphQLUnionType, unionGetTypes. rewrite Hunion.
  eexists. split; [reflexivity|].
  rewrite existsb_implementsInterface_refs. split; [auto|].
  by intros [Heq|Hm].
Qed.

Lemma mayImplement_union_witness :
  typeAt exampleHeap (rawTypeOf (GraphQLNonNull (NamedRef EntityUnion)))
  = GraphQLUnionType "Entity" [UserObject]
  ∧ ∃ b, mayImplement exampleHeap 0 (GraphQLNonNull (NamedRef EntityUnion)) "Node" = Ok b
         ∧ (b = true
            ↔ "Entity" = "Node"
              ∨ ∃ m, m ∈ [UserObject]
                     ∧ declaresInterfaceNamed exampleHeap (typeAt exampleHeap m) "Node").
Proof.
  split; [reflexivity|].
  apply (mayImplement_union exampleHeap 0 (GraphQLNonNull (NamedRef EntityUnion))
           "Node" "Entity" [UserObject]).
  reflexivity.
Defined.

Lemma elem_of_Object_values (m : gmap string loc) (type : GraphQLType) :
  In type (Object_values m) ↔ ∃ k l, type = NamedRef l ∧ m !! k = Some l.
Proof.
  unfold Object_values. rewrite <- list_elem_of_In, list_elem_of_fmap. split.
  - intros ([k l] & -> & Hkl). exists k, l. split; [done|].
    by apply elem_of_map_to_list.
  - intros (k & l & -> & Hkl). exists (k, l). split; [done|].
    by apply elem_of_map_to_list.
Qed.

(** The implementations of an interface: the object types of the type map
    that declare an interface of its name. *)
Lemma getPossibleTypes_interface (h : Heap) (schema : loc) (l : loc)
    (ifaceName : string) (fields : gmap string GraphQLField) :
  typeAt h l = GraphQLInterfaceType ifaceName fields
  → getPossibleTypes h schema (NamedRef l)
    = match List.filter (fun t => implementsInterface h t ifaceName)
              (Object_values (getTypeMap h schema)) with
      | [] => None
      | impls => Some impls
      end.
Proof.
  intros Hiface. unfold getPossibleTypes, instanceofGraphQLUnionType.
  rewrite Hiface. cbn [toString]. rewrite Hiface. cbn [typeName].
  assert (Hext : List.filter
            (fun t => existsb (fun i => String.eqb (toString h i) ifaceName)
                        (objectGetInterfaces h t))
            (Object_values (getTypeMap h schema))
          = List.filter (fun t => implementsInterface h t ifaceName)
              (Object_values (getTypeMap h schema))).
  { apply filter_ext. intros t. unfold implementsInterface.
    by rewrite getInterfaces_objectGetInterfaces. }
  rewrite Hext.
  by destruct (List.filter (fun t => implementsInterface h t ifaceName)
                 (Object_values (getTypeMap h schema))).
Qed.

(** X9: on a type whose raw type is an Interface that has an implementation
    in the schema (an object type of the type map that declares an interface
    of its name), [mayImplement] returns, and is true exactly when the
    interface has the given name or one of its implementations also declares an
    interface of that name. *)
Theorem mayImplement_interface (h : Heap) (schema : loc) (type : GraphQLType)
    (n ifaceName : string) (fields : gmap string GraphQLField) :
  typeAt h (rawTypeOf type) = GraphQLInterfaceType ifaceName fields
  → (∃ k l, getTypeMap h schema !! k = Some l
            ∧ declaresInterfaceNamed h (typeAt h l) ifaceName)
  → ∃ b, mayImplement h schema type n = Ok b
         ∧ (b = true
            ↔ ifaceName = n
              ∨ ∃ k l, getTypeMap h schema !! k = Some l
                       ∧ declaresInterfaceNamed h (typeAt h l) ifaceName
                       ∧ declaresInterfaceNamed h (typeAt h l) n).
Proof.
  intros Hiface (k0 & l0 & Hk0 & Himpl0).
  rewrite mayImplement_raw, mayImplement_named.
  assert (Habs : isInterface (typeAt h (rawTypeOf type))
                 ∨ isUnion (typeAt h (rawTypeOf type))).
  { left. by rewrite Hiface. }
  rewrite (implementsInterface_abstract h _ n Habs).
  rewrite (proj2 (abstract_named h _) Habs).
  rewrite (hasConcreteTypeThatImplements_named h schema _ n Habs).
  rewrite (getPossibleTypes_interface h schema _ ifaceName fields Hiface).
  rewrite Hiface. cbn [typeName].
  destruct (String.eqb_spec ifaceName n) as [Hn|Hn].
  { exists true. split; [done|]. split; auto. }
  set (impls := List.filter _ _).
  assert (Hin : ∀ t, In t impls
            ↔ ∃ k l, t = NamedRef l ∧ getTypeMap h schema !! k = Some l
                     ∧ declaresInterfaceNamed h (typeAt h l) ifaceName).
  { intros t. subst impls. rewrite filter_In, elem_of_Object_values. split.
    - intros [(k & l & -> & Hkl) Himpl]. exists k, l.
      repeat split; [done|]. by apply implementsInterface_declares.
    - intros (k & l & -> & Hkl & Himpl). split; [by eauto|].
      by apply implementsInterface_declares. }
  assert (Hne : impls ≠ []).
  { intros Hnil. assert (In (NamedRef l0) impls) as Hl0 by (apply Hin; eauto 6).
    by rewrite Hnil in Hl0. }
  destruct impls as [|c cs] eqn:E; [done|]. rewrite <- E in *.
  eexists. split; [reflexivity|]. rewrite existsb_exists. split.
  - intros (t & Ht & Himpl). right. apply Hin in Ht as (k & l & -> & Hkl & Hdecl).
    exists k, l. repeat split; [done|done|]. by apply implementsInterface_declares.
  - intros [Heq|(k & l & Hkl & Hdecl & Hdecl')]; [done|].
    exists (NamedRef l). split; [apply Hin; eauto 6|].
    by apply implementsInterface_declares.
Qed.

Lemma mayImplement_interface_witness :
  typeAt exampleHeap (rawTypeOf (GraphQLList (NamedRef NodeInterface)))
  = GraphQLInterfaceType "Node" (list_to_map [mkField "id" (NamedRef IDScalar)])
  ∧ (∃ k l, getTypeMap exampleHeap 0 !! k = Some l
            ∧ declaresInterfaceNamed exampleHeap (typeAt exampleHeap l) "Node")
  ∧ ∃ b, mayImplement exampleHeap 0 (GraphQLList (NamedRef NodeInterface)) "User" = Ok b
         ∧ (b = true
            ↔ "Node" = "User"
              ∨ ∃ k l, getTypeMap exampleHeap 0 !! k = Some l
                       ∧ declaresInterfaceNamed exampleHeap (typeAt exampleHeap l) "Node"
                       ∧ declaresInterfaceNamed exampleHeap (typeAt exampleHeap l) "User").
Proof.
  assert (Himpl : ∃ k l, getTypeMap exampleHeap 0 !! k = Some l
            ∧ declaresInterfaceNamed exampleHeap (typeAt exampleHeap l) "Node").
  { exists "User", UserObject. split; [vm_compute; reflexivity|].
    exists NodeInterface. split; [apply list_elem_of_here|reflexivity]. }
  split; [reflexivity|]. split; [exact Himpl|].
  apply (mayImplement_interface exampleHeap 0 (GraphQLList (NamedRef NodeInterface))
           "User" "Node" (list_to_map [mkField "id" (NamedRef IDScalar)])
           eq_refl Himpl).
Defined.

(** X10: [hasConcreteTypeThatImplements] answers [false] on a type whose raw
    type is not abstract; on a List or NonNull around an abstract type it
    throws, since the check unwraps and the library's assertion does not;
    [mayImplement] hands it the raw type, so [mayImplement] never throws an
    invariant violation. *)
Theorem hasConcreteTypeThatImplements_wrapped (h : Heap) (schema : loc)
    (type : GraphQLType) (n : string) :
  (¬ (isInterface (typeAt h (rawTypeOf type)) ∨ isUnion (typeAt h (rawTypeOf type)))
   → hasConcreteTypeThatImplements h schema type n = Ok false)
  ∧ (isInterface (typeAt h (rawTypeOf type)) ∨ isUnion (typeAt h (rawTypeOf type))
     → (∃ message, hasConcreteTypeThatImplements h schema (GraphQLList type) n
                   = Err (InvariantViolation message))
       ∧ (∃ message, hasConcreteTypeThatImplements h schema (GraphQLNonNull type) n
                     = Err (InvariantViolation message)))
  ∧ (∀ message, mayImplement h schema type n ≠ Err (InvariantViolation message)).
Proof.
  split; [|split].
  - intros Hconcrete. unfold hasConcreteTypeThatImplements.
    rewrite isAbstractType_value.
    destruct (_ || _) eqn:E; [|done]. by apply abstract_named in E.
  - intros Habs. split.
    + unfold hasConcreteTypeThatImplements. rewrite isAbstractType_value.
      simpl rawTypeOf. rewrite (proj2 (abstract_named h _) Habs).
      cbn [mbind Result_bind]. eexists. reflexivity.
    + unfold hasConcreteTypeThatImplements. rewrite isAbstractType_value.
      simpl rawTypeOf. rewrite (proj2 (abstract_named h _) Habs).
      cbn [mbind Result_bind]. eexists. reflexivity.
  - intros message. rewrite mayImplement_raw, mayImplement_named.
    destruct (String.eqb _ n); [discriminate|].
    destruct (implementsInterface _ _ n); [discriminate|].
    destruct (_ || _) eqn:E; [|discriminate].
    apply abstract_named in E.
    rewrite (hasConcreteTypeThatImplements_named h schema _ n E).
    by destruct (getPossibleTypes _ _ _).
Qed.

(** ** Assertions on resolved types *)

Lemma canHaveSelections_true (h : Heap) (type : GraphQLType) :
  canHaveSelections h type = true
  → ∃ l, type = NamedRef l ∧ (isObject (typeAt h l) ∨ isInterface (typeAt h l)).
Proof.
  destruct type as [l|t|t]; [|discriminate|discriminate].
  intros Hsel. exists l. split; [done|]. by apply canHaveSelections_named.
Qed.

Lemma assertTypeWithFields_value (h : Heap) (type : GraphQLType) :
  assertTypeWithFields h type
  = if canHaveSelections h type then Ok type else Err (typeWithFieldsError h type).
Proof.
  unfold assertTypeWithFields. fold (canHaveSelections h type).
  by destruct (canHaveSelections h type).
Qed.

(** X11: [assertTypeWithFields] succeeds exactly when [canHaveSelections]
    holds, and then returns its argument; otherwise it throws the invariant
    violation that prints the type.  A type that passed it is safe for
    [hasID]: on it [hasID] does not throw, for any schema. *)
Theorem assertTypeWithFields_guards_hasID (h : Heap) (schema : loc)
    (type : GraphQLType) :
  ((∃ r, assertTypeWithFields h type = Ok r) ↔ canHaveSelections h type = true)
  ∧ (∀ r, assertTypeWithFields h type = Ok r
       → r = type ∧ ∃ v, hasID h schema r = Ok v)
  ∧ (∀ e, assertTypeWithFields h type = Err e → e = typeWithFieldsError h type).
Proof.
  rewrite assertTypeWithFields_value.
  destruct (canHaveSelections h type) eqn:Hsel.
  - split; [split; eauto|]. split; [|discriminate].
    intros r [= <-]. split; [done|].
    destruct (canHaveSelections_true h type Hsel) as (l & -> & Hobj).
    rewrite (hasID_value h schema (NamedRef l) Hobj). eauto.
  - split; [split; [by intros [? [=]]|discriminate]|].
    split; [discriminate|]. by intros e [= <-].
Qed.

(** X12: the pattern [assertTypeWithFields(getTypeFromAST(schema, ast))]
    throws two different errors: the unknown-type error when the schema has no
    type of the leaf name, and the wrong-category error when the type exists
    but the resolved reference is not itself an Object or Interface type.  It
    succeeds only on a bare named node, never on a List or NonNull node. *)
Theorem assertTypeWithFields_getTypeFromAST (h : Heap) (schema : loc) (ast : TypeNode) :
  (getTypeMap h schema !! leafName ast = None
   → (getTypeFromAST h schema ast ≫= assertTypeWithFields h)
     = Err (unknownTypeError (print ast)))
  ∧ (∀ l, getTypeMap h schema !! leafName ast = Some l
       → (getTypeFromAST h schema ast ≫= assertTypeWithFields h)
         = if canHaveSelections h (wrapLike ast (NamedRef l))
           then Ok (wrapLike ast (NamedRef l))
           else Err (typeWithFieldsError h (wrapLike ast (NamedRef l))))
  ∧ (∀ r, (getTypeFromAST h schema ast ≫= assertTypeWithFields h) = Ok r
       → ast = NullableNode (NamedTypeNode (leafName ast))
         ∧ ∃ l, r = NamedRef l ∧ getTypeMap h schema !! leafName ast = Some l
                ∧ (isObject (typeAt h l) ∨ isInterface (typeAt h l)))
  ∧ (∀ printed type, unknownTypeError printed ≠ typeWithFieldsError h type).
Proof.
  rewrite getTypeFromAST_value. split; [|split; [|split]].
  - by intros ->.
  - intros l ->. cbn [mbind Result_bind]. apply assertTypeWithFields_value.
  - intros r. destruct (getTypeMap h schema !! leafName ast) as [l|]; [|discriminate].
    cbn [mbind Result_bind]. rewrite assertTypeWithFields_value.
    destruct (canHaveSelections h (wrapLike ast (NamedRef l))) eqn:Hsel; [|discriminate].
    intros [= <-]. apply canHaveSelections_true in Hsel as (l' & Heq & Hobj).
    destruct ast as [[value|t]|[value|t]]; simpl in Heq; try discriminate.
    injection Heq as ->. split; [done|]. exists l'. by repeat split.
  - intros printed type. unfold unknownTypeError, typeWithFieldsError. simpl.
    intros [=].
Qed.

(** X13: [getOperationDefinitionAST] returns the node it was given, and
    only for a fragment or operation definition; for every other kind, among
    them the eight schema-definition kinds, it returns null. *)
Theorem getOperationDefinitionAST_narrows (ast : ASTNode) :
  (∀ r, getOperationDefinitionAST ast = Some r
        → r = ast ∧ kind r ∈ operationDefinitionKinds
          ∧ isSchemaDefinitionAST r = false)
  ∧ (getOperationDefinitionAST ast = None ↔ kind ast ∉ operationDefinitionKinds)
  ∧ (kind ast ∈ schemaDefinitionKinds → getOperationDefinitionAST ast = None).
Proof.
  assert (Hdisj : kind ast ∈ operationDefinitionKinds
                  → kind ast ∈ schemaDefinitionKinds → False).
  { unfold schemaDefinitionKinds, operationDefinitionKinds.
    rewrite !elem_of_cons, !elem_of_nil.
    intros [Ho|[Ho|[]]] Hs; rewrite Ho in Hs;
      repeat (destruct Hs as [Hs|Hs]; [discriminate|]); done. }
  unfold getOperationDefinitionAST.
  destruct (isOperationDefinitionAST ast) eqn:Hop.
  - apply isOperationDefinitionAST_spec in Hop. split; [|split].
    + intros r [= <-]. split; [done|]. split; [done|].
      apply not_true_is_false. rewrite isSchemaDefinitionAST_spec.
      intros Hs. by apply Hdisj.
    + split; [discriminate|]. by intros Hno.
    + intros Hs. by destruct (Hdisj Hop Hs).
  - split; [discriminate|]. split; [|done].
    split; [|done]. intros _ Hin. apply isOperationDefinitionAST_spec in Hin. congruence.
Qed.

(** ** More on schemaWithDirectives *)

Lemma schemaWithDirectives_Ok (h h' : Heap) (schema schema' : loc)
    (ds : list GraphQLDirective) :
  schemaWithDirectives h schema ds = Ok (schema', h')
  → NoDup (name <$> (getDirectives h schema ++ ds)%list)
    ∧ getDirectives h' schema' = (getDirectives h schema ++ ds)%list.
Proof.
  rewrite schemaWithDirectives_unfold.
  destruct (validateUniqueNames _ _) as [seen|e] eqn:E; [|discriminate].
  intros Hok.
  assert (Heq : newGraphQLSchema h (copyConfig h schema ds) = (schema', h'))
    by congruence.
  split.
  - by apply (proj1 (validateUniqueNames_Ok _ ∅)); eauto.
  - pose proof (newGraphQLSchema_directives h (copyConfig h schema ds)) as Hd.
    by rewrite Heq in Hd.
Qed.

(** X14: a schema returned by [schemaWithDirectives] has pairwise distinct
    directive names, starts with the input's directives in their order, and
    has exactly the input's and the new directives; a call can only succeed
    when the input's directives had distinct names already. *)
Theorem schemaWithDirectives_result_unique (h h' : Heap) (schema schema' : loc)
    (newDirectives : list GraphQLDirective) :
  schemaWithDirectives h schema newDirectives = Ok (schema', h')
  → NoDup (name <$> getDirectives h' schema')
    ∧ getDirectives h schema `prefix_of` getDirectives h' schema'
    ∧ (∀ d, d ∈ getDirectives h' schema'
            ↔ d ∈ getDirectives h schema ∨ d ∈ newDirectives)
    ∧ NoDup (name <$> getDirectives h schema)
    ∧ NoDup (name <$> newDirectives)
    ∧ (∀ d, d ∈ newDirectives → name d ∉ name <$> getDirectives h schema).
Proof.
  intros Hok. apply schemaWithDirectives_Ok in Hok as [Hnd ->].
  split; [done|]. split; [by apply prefix_app_r|].
  split; [intros d; apply elem_of_app|].
  rewrite fmap_app in Hnd. apply NoDup_app in Hnd as (Hbase & Hdisj & Hnew).
  split; [done|]. split; [done|].
  intros d Hd Hin. apply (Hdisj _ Hin). by apply list_elem_of_fmap_2.
Qed.

Lemma schemaWithDirectives_result_unique_witness :
  schemaWithDirectives exampleHeap 0 [relayDirective]
  = Ok (newGraphQLSchema exampleHeap (copyConfig exampleHeap 0 [relayDirective]))
  ∧ let r := newGraphQLSchema exampleHeap (copyConfig exampleHeap 0 [relayDirective]) in
    NoDup (name <$> getDirectives r.2 r.1)
    ∧ getDirectives exampleHeap 0 `prefix_of` getDirectives r.2 r.1
    ∧ (∀ d, d ∈ getDirectives r.2 r.1
            ↔ d ∈ getDirectives exampleHeap 0 ∨ d ∈ [relayDirective])
    ∧ NoDup (name <$> getDirectives exampleHeap 0)
    ∧ NoDup (name <$> [relayDirective])
    ∧ (∀ d, d ∈ [relayDirective] → name d ∉ name <$> getDirectives exampleHeap 0).
Proof.
  split; [vm_compute; reflexivity|].
  apply (schemaWithDirectives_result_unique exampleHeap _ 0 _ [relayDirective]).
  vm_compute; reflexivity.
Defined.

(** X15: extending in two steps is extending in one: when a first call
    succeeds, a second call on its result throws the same error, or returns a
    schema with the same directives, as one call on the original schema with
    both lists of new directives. *)
Theorem schemaWithDirectives_compose (h h1 : Heap) (schema schema1 : loc)
    (first second : list GraphQLDirective) :
  schemaWithDirectives h schema first = Ok (schema1, h1)
  → resultDirectives (schemaWithDirectives h1 schema1 second)
    = resultDirectives (schemaWithDirectives h schema (first ++ second)%list).
Proof.
  intros Hok. apply schemaWithDirectives_Ok in Hok as [_ Hd].
  rewrite !schemaWithDirectives_unfold, Hd, <- app_assoc.
  destruct (validateUniqueNames _ _) as [seen|e]; [|done].
  pose proof (newGraphQLSchema_directives h1 (copyConfig h1 schema1 second)) as H1.
  pose proof (newGraphQLSchema_directives h
                (copyConfig h schema (first ++ second)%list)) as H2.
  destruct (newGraphQLSchema h1 _) as [s2 h2].
  destruct (newGraphQLSchema h _) as [s2' h2'].
  simpl in *. rewrite H1, H2, Hd. by rewrite <- app_assoc.
Qed.

Lemma schemaWithDirectives_compose_witness :
  let r := newGraphQLSchema exampleHeap (copyConfig exampleHeap 0 [relayDirective]) in
  schemaWithDirectives exampleHeap 0 [relayDirective] = Ok r
  ∧ resultDirectives (schemaWithDirectives r.2 r.1 [connectionDirective])
    = resultDirectives
        (schemaWithDirectives exampleHeap 0 [relayDirective; connectionDirective]).
Proof.
  split; [vm_compute; reflexivity|].
  apply (schemaWithDirectives_compose exampleHeap _ 0 _ [relayDirective]
           [connectionDirective]).
  vm_compute; reflexivity.
Defined.

(** ** Two schemas over the same types and type map *)

Lemma existsb_pointwise {A : Type} (f g : A → bool) (l : list A) :
  (∀ x, f x = g x) → existsb f l = existsb g l.
Proof. intros Hfg. induction l as [|x l IH]; simpl; [done|]. by rewrite Hfg, IH. Qed.

Lemma forallb_pointwise {A : Type} (f g : A → bool) (l : list A) :
  (∀ x, f x = g x) → forallb f l = forallb g l.
Proof. intros Hfg. induction l as [|x l IH]; simpl; [done|]. by rewrite Hfg, IH. Qed.

Section SameTypes.

Variables (h h' : Heap) (schema schema' : loc).
Hypothesis Htypes : ∀ l, typeAt h' l = typeAt h l.
Hypothesis Hmap : getTypeMap h' schema' = getTypeMap h schema.

Lemma toString_same (type : GraphQLType) : toString h' type = toString h type.
Proof. induction type as [l|t IH|t IH]; simpl; by rewrite ?Htypes, ?IH. Qed.

Lemma canHaveSelections_same (type : GraphQLType) :
  canHaveSelections h' type = canHaveSelections h type.
Proof. unfold canHaveSelections. destruct type; simpl; by rewrite ?Htypes. Qed.

Lemma abstract_same (type : GraphQLType) :
  instanceofGraphQLInterfaceType h' type || instanceofGraphQLUnionType h' type
  = instanceofGraphQLInterfaceType h type || instanceofGraphQLUnionType h type.
Proof. destruct type; simpl; by rewrite ?Htypes. Qed.

Lemma getFields_same (type : GraphQLType) : getFields h' type = getFields h type.
Proof. destruct type; simpl; by rewrite ?Htypes. Qed.

Lemma implementsInterface_same (type : GraphQLType) (n : string) :
  implementsInterface h' type n = implementsInterface h type n.
Proof.
  unfold implementsInterface. rewrite !getInterfaces_objectGetInterfaces.
  assert (objectGetInterfaces h' type = objectGetInterfaces h type) as ->.
  { destruct type; simpl; by rewrite ?Htypes. }
  apply existsb_pointwise. intros i. by rewrite toString_same.
Qed.

Lemma getPossibleTypes_same (type : GraphQLType) :
  getPossibleTypes h' schema' type = getPossibleTypes h schema type.
Proof.
  unfold getPossibleTypes.
  assert (instanceofGraphQLUnionType h' type = instanceofGraphQLUnionType h type) as ->.
  { destruct type; simpl; by rewrite ?Htypes. }
  assert (unionGetTypes h' type = unionGetTypes h type) as ->.
  { destruct type; simpl; by rewrite ?Htypes. }
  rewrite Hmap.
  assert (Hfilter : List.filter
            (fun t => existsb (fun i => String.eqb (toString h' i) (toString h' type))
                        (objectGetInterfaces h' t))
            (Object_values (getTypeMap h schema))
          = List.filter
              (fun t => existsb (fun i => String.eqb (toString h i) (toString h type))
                          (objectGetInterfaces h t))
              (Object_values (getTypeMap h schema))).
  { apply filter_ext. intros t.
    assert (objectGetInterfaces h' t = objectGetInterfaces h t) as ->.
    { destruct t; simpl; by rewrite ?Htypes. }
    apply existsb_pointwise. intros i. by rewrite !toString_same. }
  by rewrite Hfilter.
Qed.

Lemma mayImplement_same (type : GraphQLType) (n : string) :
  mayImplement h' schema' type n = mayImplement h schema type n.
Proof.
  rewrite (mayImplement_raw h'), (mayImplement_raw h), !mayImplement_named.
  rewrite Htypes, implementsInterface_same, abstract_same.
  destruct (String.eqb _ n); [done|].
  destruct (implementsInterface h _ n); [done|].
  destruct (_ || _) eqn:Habs; [|done].
  unfold hasConcreteTypeThatImplements.
  rewrite !isAbstractType_value, abstract_same. simpl rawTypeOf. rewrite Habs.
  cbn [mbind Result_bind]. unfold getConcreteTypes, assertAbstractType.
  rewrite abstract_same, Habs. cbn [invariant mbind Result_bind].
  rewrite getPossibleTypes_same.
  destruct (getPossibleTypes h schema _) as [cs|]; [|done].
  f_equal. apply existsb_pointwise. intros c. apply implementsInterface_same.
Qed.

Lemma hasID_same (type : GraphQLType) :
  hasID h' schema' type = hasID h schema type.
Proof.
  rewrite !hasID_unfold, canHaveSelections_same, toString_same, getFields_same.
  unfold getType. by rewrite Hmap.
Qed.

Lemma getTypeFromAST_same (ast : TypeNode) :
  getTypeFromAST h' schema' ast = getTypeFromAST h schema ast.
Proof. by rewrite !getTypeFromAST_value, Hmap. Qed.

End SameTypes.

(** X16: the schema returned by [schemaWithDirectives] for a schema as the
    constructor builds them answers every type question as the original does:
    [getTypeFromAST], [hasID] and [mayImplement] return the same value or throw
    the same error on the copy and on the original, and the copy is again
    such a schema. *)
Theorem schemaWithDirectives_same_answers (h h' : Heap) (schema schema' : loc)
    (newDirectives : list GraphQLDirective) :
  wellFormedSchema h schema = true
  → schemaWithDirectives h schema newDirectives = Ok (schema', h')
  → (∀ ast, getTypeFromAST h' schema' ast = getTypeFromAST h schema ast)
    ∧ (∀ type, hasID h' schema' type = hasID h schema type)
    ∧ (∀ type n, mayImplement h' schema' type n = mayImplement h schema type n)
    ∧ wellFormedSchema h' schema' = true.
Proof.
  intros Hwf. rewrite schemaWithDirectives_unfold.
  destruct (validateUniqueNames _ _) as [seen|e]; [|discriminate].
  intros Hok.
  assert (Heq : newGraphQLSchema h (copyConfig h schema newDirectives) = (schema', h'))
    by congruence.
  pose proof (copyConfig_typeMap h schema newDirectives Hwf) as Hmap.
  rewrite Heq in Hmap. simpl in Hmap.
  assert (Htypes : ∀ l, typeAt h' l = typeAt h l).
  { intros l. unfold newGraphQLSchema, alloc in Heq. by injection Heq as _ <-. }
  assert (Hroots : getQueryType h' schema' = getQueryType h schema
                   ∧ getMutationType h' schema' = getMutationType h schema
                   ∧ getSubscriptionType h' schema' = getSubscriptionType h schema).
  { unfold newGraphQLSchema, alloc in Heq. injection Heq as <- <-.
    unfold getQueryType, getMutationType, getSubscriptionType.
    cbn [schemaAt]. by rewrite Nat.eqb_refl. }
  destruct Hroots as (Hq & Hm & Hs).
  split; [intros ast; by apply getTypeFromAST_same|].
  split; [intros type; by apply hasID_same|].
  split; [intros type n; by apply mayImplement_same|].
  rewrite <- Hwf. unfold wellFormedSchema, registered.
  rewrite Hmap, Hq, Hm, Hs, !Htypes.
  f_equal; [f_equal; [f_equal|]|].
  - apply forallb_pointwise. intros kv. by rewrite Htypes.
  - destruct (getMutationType h schema); simpl; by rewrite ?Htypes.
  - destruct (getSubscriptionType h schema); simpl; by rewrite ?Htypes.
Qed.

Lemma schemaWithDirectives_same_answers_witness :
  wellFormedSchema exampleHeap 0 = true
  ∧ let r := newGraphQLSchema exampleHeap (copyConfig exampleHeap 0 [relayDirective]) in
    schemaWithDirectives exampleHeap 0 [relayDirective] = Ok r
    ∧ (∀ ast, getTypeFromAST r.2 r.1 ast = getTypeFromAST exampleHeap 0 ast)
    ∧ (∀ type, hasID r.2 r.1 type = hasID exampleHeap 0 type)
    ∧ (∀ type n, mayImplement r.2 r.1 type n = mayImplement exampleHeap 0 type n)
    ∧ wellFormedSchema r.2 r.1 = true.
Proof.
  split; [vm_compute; reflexivity|]. split; [vm_compute; reflexivity|].
  apply (schemaWithDirectives_same_answers exampleHeap _ 0 _ [relayDirective]).
  - vm_compute; reflexivity.
  - vm_compute; reflexivity.
Defined.
